(** * tfjs-data: the string splitting iterator

    A shallow embedding of [src/stateful_iterators/string_iterator.ts]
    ([SplitIteratorImpl.initialState], [SplitIteratorImpl.statefulPump])
    together with the JavaScript primitives it calls
    ([String.prototype.split], string [+], array indexing and [slice]).

    JavaScript strings are sequences of code units; the pump only ever
    compares code units for equality, so a string is modelled as a
    [String.string] whose characters stand for the code units.  The
    [console.log] calls of the pump write to the console only and are left
    out. *)

From Stdlib Require Import String Ascii List Bool Arith Lia.
Import ListNotations.

Local Open Scope list_scope.
Local Open Scope string_scope.

(** ** Strings *)

Module Str.

Definition is_empty (s : string) : bool :=
  match s with
  | EmptyString => true
  | String _ _ => false
  end.

(** One code unit as a string. *)
Definition unit (c : ascii) : string := String c EmptyString.

(** [Array.prototype.join]: the elements separated by [sep]; the empty
    array joins to the empty string. *)
Fixpoint join (sep : string) (l : list string) : string :=
  match l with
  | [] => EmptyString
  | [x] => x
  | x :: rest => x ++ sep ++ join sep rest
  end.

(** Concatenation of all the fragments: the logical stream. *)
Fixpoint concat (l : list string) : string :=
  match l with
  | [] => EmptyString
  | x :: rest => x ++ concat rest
  end.

(** The code units of a string, each as a string of its own. *)
Fixpoint chars (s : string) : list string :=
  match s with
  | EmptyString => []
  | String c s' => unit c :: chars s'
  end.

(** [contains sep s]: [sep] occurs in [s] at some position. *)
Fixpoint contains (sep s : string) : bool :=
  prefix sep s ||
  match s with
  | EmptyString => false
  | String _ s' => contains sep s'
  end.

(** Drops the first [n] code units. *)
Fixpoint skip (n : nat) (s : string) : string :=
  match n, s with
  | 0, _ => s
  | S _, EmptyString => EmptyString
  | S n', String _ s' => skip n' s'
  end.

(** Number of occurrences of [sep] in [s], scanning from the left and
    resuming after each occurrence found (occurrences do not overlap);
    [fuel] bounds the scan and [length s] is always enough. *)
Fixpoint count_from (fuel : nat) (sep s : string) : nat :=
  match fuel, s with
  | 0, _ => 0
  | _, EmptyString => 0
  | S fuel', String _ s' =>
      if prefix sep s
      then S (count_from fuel' sep (skip (String.length sep) s))
      else count_from fuel' sep s'
  end.

Definition occurrences (sep s : string) : nat :=
  count_from (String.length s) sep s.

(** Number of positions of [s] holding the code unit [c]. *)
Fixpoint count_char (c : ascii) (s : string) : nat :=
  match s with
  | EmptyString => 0
  | String a s' => (if Ascii.eqb a c then 1 else 0) + count_char c s'
  end.

End Str.

(** ** [String.prototype.split]

    ECMAScript, [String.prototype.split (separator, limit)] with a string
    separator [R] and no limit (the default limit of [2^32 - 1] parts is
    beyond the length a string can have).  The algorithm keeps two indices
    into the subject [S]: [p], where the part being collected starts, and
    [q], the position examined.  Below, [T] is [S[p..q)] and [s] is
    [S[q..)]. *)

Module JS.

(** [SplitMatcher (S, q, R)]: failure ([None]) unless [R] occurs in [S] at
    [q]; otherwise the end index [q + length R], given here as the rest of
    the subject from that index on. *)
Fixpoint SplitMatcher (R s : string) : option string :=
  match R with
  | EmptyString => Some s
  | String r R' =>
      match s with
      | EmptyString => None
      | String c s' => if Ascii.eqb c r then SplitMatcher R' s' else None
      end
  end.

(** The loop "repeat, while [q < size]": on failure [q] advances; on a match
    ending at [e = p] (an empty separator, nothing collected yet) [q]
    advances as well; on any other match the part [T] is appended to the
    result and [p] and [q] move to [e].  After the loop the last part
    [S[p..size)] is appended.  Every iteration shortens [s] or empties [T],
    so [2 * length s] iterations are enough. *)
Fixpoint split_loop (fuel : nat) (R T s : string) : list string :=
  match s with
  | EmptyString => [T]
  | String c s' =>
      match fuel with
      | 0 => [T ++ s]
      | S fuel' =>
          match SplitMatcher R s with
          | None => split_loop fuel' R (T ++ Str.unit c) s'
          | Some rest =>
              if Str.is_empty R && Str.is_empty T
              then split_loop fuel' R (T ++ Str.unit c) s'
              else T :: split_loop fuel' R EmptyString rest
          end
      end
  end.

(** Enough iterations for the loop started with [T] collected and [s] to
    examine. *)
Definition enough (fuel : nat) (T s : string) : Prop :=
  2 * String.length s <= fuel + (if Str.is_empty T then 1 else 0).

(** [S.split(R)].  An empty subject is the special case of the standard:
    the result is empty when the separator matches it (only the empty
    separator does) and [[S]] otherwise. *)
Definition split (S R : string) : list string :=
  match S with
  | EmptyString =>
      match SplitMatcher R S with
      | Some _ => []
      | None => [S]
      end
  | String _ _ => split_loop (2 * String.length S) R EmptyString S
  end.

(** The loop on [s] with [T] already collected, with the iterations
    [split] allows for [s]. *)
Definition lines_from (R T s : string) : list string :=
  split_loop (2 * String.length s) R T s.

(** ["" + undefined]: the string an absent array element turns into under
    string concatenation. *)
Definition undefined : string := "undefined".

(** [lines[0] = carryover + lines[0]].  Reading index 0 of an empty array
    gives [undefined], and writing index 0 of an empty array extends it. *)
Definition prepend_first (carryover : string) (lines : list string)
  : list string :=
  match lines with
  | [] => [carryover ++ undefined]
  | l0 :: rest => (carryover ++ l0) :: rest
  end.

(** [lines.slice(0, -1)]. *)
Definition slice_init (lines : list string) : list string :=
  removelast lines.

(** [lines[lines.length - 1]] on an array that holds at least one element
    (the pump reads it after writing index 0). *)
Definition last_elem (lines : list string) : string :=
  last lines EmptyString.

End JS.

(** ** The iterator *)

(** [interface StringCarryover]: a partial string at the end of an upstream
    chunk. *)
Record StringCarryover : Set := { carryover : string }.

(** [StatefulPumpResult<StringCarryover>]. *)
Record StatefulPumpResult : Set :=
  { pumpDidWork : bool; state : StringCarryover }.

(** What a pull returns: [{done: true}] or [{value, done: false}]. *)
Inductive IteratorResult : Set :=
  | IterDone
  | IterValue (value : string).

(** The upstream iterator: the fragments it has yet to deliver.  A pull
    removes the first one; an exhausted upstream reports done on every
    pull. *)
Definition upstream_next (u : list string) : IteratorResult * list string :=
  match u with
  | [] => (IterDone, [])
  | f :: u' => (IterValue f, u')
  end.

(** The fields of a [SplitIteratorImpl]: the two constructor parameters and
    the [outputQueue] it inherits (push at the back, shift at the front). *)
Record SplitIteratorImpl : Set :=
  { upstream : list string;
    separator : string;
    outputQueue : list string }.

Definition with_upstream (this : SplitIteratorImpl) (u : list string) :=
  {| upstream := u;
     separator := separator this;
     outputQueue := outputQueue this |}.

(** [this.outputQueue.push(line)]. *)
Definition push (this : SplitIteratorImpl) (line : string) :=
  {| upstream := upstream this;
     separator := separator this;
     outputQueue := outputQueue this ++ [line] |}.

(** [for (const line of lines) this.outputQueue.push(line)]. *)
Definition push_all (this : SplitIteratorImpl) (lines : list string) :=
  fold_left push lines this.

Definition initialState : StringCarryover := {| carryover := "" |}.

(** [SplitIteratorImpl.statefulPump]; the pump returns its result and leaves
    the iterator object changed (upstream advanced, lines queued). *)
Definition statefulPump (this : SplitIteratorImpl) (st : StringCarryover)
  : StatefulPumpResult * SplitIteratorImpl :=
  let (chunkResult, u) := upstream_next (upstream this) in
  let this := with_upstream this u in
  match chunkResult with
  | IterDone =>
      if (carryover st =? "")%string
      then ({| pumpDidWork := false; state := st |}, this)
      else ({| pumpDidWork := true; state := {| carryover := "" |} |},
            push this (carryover st))
  | IterValue value =>
      let lines := JS.split value (separator this) in
      let lines := JS.prepend_first (carryover st) lines in
      let this := push_all this (JS.slice_init lines) in
      let newCarryover := JS.last_elem lines in
      ({| pumpDidWork := true; state := {| carryover := newCarryover |} |},
       this)
  end.

(** Modelled from the spec: [StatefulOneToManyIterator.statefulNext], the
    pull operation of the base class in [stateful_iterator.ts], which is
    imported by the source file but is not part of it.  Section 4.2: if the
    output queue is non-empty, remove and return its front token; otherwise
    invoke the pump and retry; if the pump reports no work done, return
    done.  [fuel] bounds the number of pumps of one pull. *)
Fixpoint statefulNext (fuel : nat) (this : SplitIteratorImpl)
  (st : StringCarryover)
  : option (IteratorResult * StringCarryover * SplitIteratorImpl) :=
  match outputQueue this with
  | token :: queue =>
      Some (IterValue token, st,
            {| upstream := upstream this;
               separator := separator this;
               outputQueue := queue |})
  | [] =>
      match fuel with
      | 0 => None
      | S fuel' =>
          let (r, this') := statefulPump this st in
          if pumpDidWork r
          then statefulNext fuel' this' (state r)
          else Some (IterDone, state r, this')
      end
  end.

(** A consumer that pulls until the iterator reports done, and the tokens
    it has received by then. *)
Fixpoint collect (fuel : nat) (this : SplitIteratorImpl)
  (st : StringCarryover) : option (list string) :=
  match fuel with
  | 0 => None
  | S fuel' =>
      match statefulNext fuel this st with
      | None => None
      | Some (IterDone, _, _) => Some []
      | Some (IterValue token, st', this') =>
          option_map (cons token) (collect fuel' this' st')
      end
  end.

(** A fresh iterator over the fragments [frags], as [split(separator)]
    builds it. *)
Definition SplitIterator (frags : list string) (sep : string) :=
  {| upstream := frags; separator := sep; outputQueue := [] |}.

(** Pulls that are always enough to exhaust an iterator. *)
Definition budget (this : SplitIteratorImpl) : nat :=
  length (outputQueue this)
  + fold_right (fun f n => S (String.length f + n)) 0 (upstream this)
  + 3.

(** The tokens the iterator over [frags] emits until it reports done. *)
Definition run (sep : string) (frags : list string) : list string :=
  let this := SplitIterator frags sep in
  match collect (budget this) this initialState with
  | Some tokens => tokens
  | None => []
  end.

(** [n] pumps in a row, each on the state the one before returned. *)
Fixpoint pump_each (n : nat) (this : SplitIteratorImpl)
  (st : StringCarryover) : StringCarryover * SplitIteratorImpl :=
  match n with
  | 0 => (st, this)
  | S n' =>
      let (r, this') := statefulPump this st in
      pump_each n' this' (state r)
  end.

(** The carryover once the pump has consumed each of [frags], from the
    initial state, and the tokens queued by then. *)
Definition carryover_after (sep : string) (frags : list string) : string :=
  carryover
    (fst (pump_each (length frags) (SplitIterator frags sep) initialState)).

Definition queued_after (sep : string) (frags : list string) : list string :=
  outputQueue
    (snd (pump_each (length frags) (SplitIterator frags sep) initialState)).

(** The lines of one fragment as the pump sees them: the parts of the
    fragment with the carryover put before the first. *)
Definition pump_lines (sep carry f : string) : list string :=
  JS.prepend_first carry (JS.split f sep).

(** The lines of a sequence of fragments: what the pumps queue, fragment
    after fragment, followed by the carryover they leave. *)
Fixpoint stream_lines (sep : string) (frags : list string) (carry : string)
  : list string :=
  match frags with
  | [] => [carry]
  | f :: rest =>
      let lines := pump_lines sep carry f in
      JS.slice_init lines ++ stream_lines sep rest (JS.last_elem lines)
  end.

(** Lines read as a token stream: every line but the last, and the last
    unless it is empty. *)
Definition finish (lines : list string) : list string :=
  JS.slice_init lines ++
  (if (JS.last_elem lines =? "")%string then [] else [JS.last_elem lines]).

(** What an iterator in a given state has yet to deliver. *)
Definition pending (this : SplitIteratorImpl) (st : StringCarryover)
  : list string :=
  outputQueue this ++
  finish (stream_lines (separator this) (upstream this) (carryover st)).

(** No position of [s] holds the code unit [c]. *)
Fixpoint free_of (c : ascii) (s : string) : Prop :=
  match s with
  | EmptyString => True
  | String a s' => a <> c /\ free_of c s'
  end.

(** The last code unit of [s] is [c]. *)
Fixpoint ends_with (c : ascii) (s : string) : bool :=
  match s with
  | EmptyString => false
  | String a EmptyString => Ascii.eqb a c
  | String _ s' => ends_with c s'
  end.

(** No occurrence of [R] in [T ++ s] starts inside [T]: what the loop of
    [split] knows of the part [T] it is collecting. *)
Fixpoint unmatched (R T s : string) : Prop :=
  match T with
  | EmptyString => True
  | String _ T' => prefix R (T ++ s) = false /\ unmatched R T' s
  end.

Example split_comma : JS.split "a,b,,c" "," = ["a"; "b"; ""; "c"].
Proof. reflexivity. Qed.

Example split_boundaries : JS.split " ab " " " = [""; "ab"; ""].
Proof. reflexivity. Qed.

Example split_empty_subject : JS.split "" "," = [""].
Proof. reflexivity. Qed.

Example split_empty_both : JS.split "" "" = [].
Proof. reflexivity. Qed.

Example split_into_units : JS.split "abc" "" = ["a"; "b"; "c"].
Proof. reflexivity. Qed.

Example split_long_separator : JS.split "aaa" "aa" = [""; "a"].
Proof. reflexivity. Qed.

Example scenario_A : run "," ["a,b"; ",c"] = ["a"; "b"; "c"].
Proof. reflexivity. Qed.

Example scenario_B : run "," ["a,"; ",b"] = ["a"; ""; "b"].
Proof. reflexivity. Qed.

Example scenario_C : run "," ["abc"] = ["abc"].
Proof. reflexivity. Qed.

Example run_empty_sep : run "" ["ab"; "cd"] = ["a"; "bc"; "d"].
Proof. reflexivity. Qed.

Example run_undefined : run "" [""] = ["undefined"].
Proof. reflexivity. Qed.

Example run_long_sep : run "ab" ["xa"; "by"] = ["xaby"].
Proof. reflexivity. Qed.

(** ** Strings: concatenation and length *)

Lemma append_empty_r (s : string) : s ++ "" = s.
Proof. induction s as [|c s IH]; simpl; [reflexivity | now rewrite IH]. Qed.

Lemma append_assoc (a b c : string) : (a ++ b) ++ c = a ++ (b ++ c).
Proof. induction a as [|x a IH]; simpl; [reflexivity | now rewrite IH]. Qed.

Lemma length_append (a b : string) :
  String.length (a ++ b) = String.length a + String.length b.
Proof. induction a as [|x a IH]; simpl; [reflexivity | now rewrite IH]. Qed.

Lemma append_unit (c : ascii) (s : string) : Str.unit c ++ s = String c s.
Proof. reflexivity. Qed.

Lemma eqb_empty (s : string) : (s =? "")%string = Str.is_empty s.
Proof. destruct s; reflexivity. Qed.

Lemma is_empty_true (s : string) : Str.is_empty s = true <-> s = "".
Proof. destruct s; simpl; split; congruence. Qed.

Lemma is_empty_false (s : string) : Str.is_empty s = false <-> s <> "".
Proof. destruct s; simpl; split; congruence. Qed.

Lemma is_empty_append_unit (T : string) (c : ascii) :
  Str.is_empty (T ++ Str.unit c) = false.
Proof. destruct T; reflexivity. Qed.

Lemma append_is_empty (a b : string) :
  Str.is_empty (a ++ b) = Str.is_empty a && Str.is_empty b.
Proof. destruct a; reflexivity. Qed.

Lemma concat_app (l1 l2 : list string) :
  Str.concat (l1 ++ l2) = Str.concat l1 ++ Str.concat l2.
Proof.
  induction l1 as [|x l1 IH]; simpl; [reflexivity|].
  now rewrite IH, append_assoc.
Qed.

(** ** The matcher *)

Lemma SplitMatcher_Some (R s rest : string) :
  JS.SplitMatcher R s = Some rest -> s = R ++ rest.
Proof.
  revert s; induction R as [|r R IH]; intros s H; simpl in *.
  - congruence.
  - destruct s as [|c s]; [discriminate|].
    destruct (Ascii.eqb_spec c r) as [->|]; [|discriminate].
    now rewrite (IH _ H).
Qed.


Lemma SplitMatcher_prefix (R s : string) :
  JS.SplitMatcher R s =
  if prefix R s then Some (Str.skip (String.length R) s) else None.
Proof.
  revert s; induction R as [|r R IH]; intros s; simpl.
  - destruct s; reflexivity.
  - destruct s as [|c s]; [reflexivity|].
    change (prefix (String r R) (String c s))
      with (if ascii_dec r c then prefix R s else false).
    destruct (ascii_dec r c) as [->|Hne].
    + rewrite Ascii.eqb_refl. apply IH.
    + destruct (Ascii.eqb_spec c r); [congruence | reflexivity].
Qed.

Lemma SplitMatcher_unit (c a : ascii) (s : string) :
  JS.SplitMatcher (Str.unit c) (String a s) =
  if Ascii.eqb a c then Some s else None.
Proof. reflexivity. Qed.

Lemma SplitMatcher_length (R s rest : string) :
  JS.SplitMatcher R s = Some rest ->
  String.length s = String.length R + String.length rest.
Proof.
  intros H. rewrite (SplitMatcher_Some _ _ _ H). apply length_append.
Qed.

(** ** The splitting loop *)

Lemma split_loop_fuel (R : string) (f1 f2 : nat) (T s : string) :
  JS.enough f1 T s -> JS.enough f2 T s ->
  JS.split_loop f1 R T s = JS.split_loop f2 R T s.
Proof.
  revert f2 T s; induction f1 as [|f1 IH]; intros f2 T s H1 H2;
    destruct s as [|c s]; try (destruct f2; reflexivity).
  - unfold JS.enough in H1; simpl in H1. destruct (Str.is_empty T); lia.
  - destruct f2 as [|f2].
    { unfold JS.enough in H2; simpl in H2. destruct (Str.is_empty T); lia. }
    assert (Hadv : JS.split_loop f1 R (T ++ Str.unit c) s
                   = JS.split_loop f2 R (T ++ Str.unit c) s).
    { apply IH; unfold JS.enough in *; rewrite is_empty_append_unit;
        simpl in *; destruct (Str.is_empty T); lia. }
    simpl. destruct (JS.SplitMatcher R (String c s)) as [rest|] eqn:Hm;
      [|exact Hadv].
    destruct (Str.is_empty R && Str.is_empty T) eqn:Hep; [exact Hadv|].
    f_equal. apply SplitMatcher_length in Hm.
    apply andb_false_iff in Hep.
    apply IH; unfold JS.enough in *; simpl in *;
      destruct Hep as [Hep|Hep]; rewrite ?Hep in *.
    + destruct R; [discriminate|]. simpl in Hm.
      destruct (Str.is_empty T); lia.
    + lia.
    + destruct R; [discriminate|]. simpl in Hm.
      destruct (Str.is_empty T); lia.
    + lia.
Qed.

Lemma split_loop_cons (fuel : nat) (R T s : string) :
  exists l0 ls, JS.split_loop fuel R T s = l0 :: ls.
Proof.
  revert T s; induction fuel as [|fuel IH]; intros T s;
    destruct s as [|c s]; simpl; eauto.
  destruct (JS.SplitMatcher R (String c s)); eauto.
  destruct (Str.is_empty R && Str.is_empty T); eauto.
Qed.

Lemma join_cons (sep x y : string) (l : list string) :
  Str.join sep (x :: y :: l) = x ++ sep ++ Str.join sep (y :: l).
Proof. reflexivity. Qed.

(** Joining what the loop returns gives back what it was given, however
    many iterations it was allowed. *)
Lemma join_split_loop (fuel : nat) (R T s : string) :
  Str.join R (JS.split_loop fuel R T s) = T ++ s.
Proof.
  revert T s; induction fuel as [|fuel IH]; intros T s;
    destruct s as [|c s]; simpl;
    try (now rewrite append_empty_r); try reflexivity.
  assert (Hadv : Str.join R (JS.split_loop fuel R (T ++ Str.unit c) s)
                 = T ++ String c s).
  { rewrite IH, append_assoc. reflexivity. }
  destruct (JS.SplitMatcher R (String c s)) as [rest|] eqn:Hm; [|exact Hadv].
  destruct (Str.is_empty R && Str.is_empty T); [exact Hadv|].
  destruct (split_loop_cons fuel R "" rest) as (l0 & ls & E).
  rewrite E, join_cons, <- E, IH. simpl.
  now rewrite <- (SplitMatcher_Some _ _ _ Hm).
Qed.

(** [S.split(R).join(R) === S]. *)
Lemma join_split (S R : string) : Str.join R (JS.split S R) = S.
Proof.
  destruct S as [|c S].
  - unfold JS.split. destruct (JS.SplitMatcher R ""); reflexivity.
  - unfold JS.split. now rewrite join_split_loop.
Qed.

Lemma split_nil (S R : string) : JS.split S R = [] <-> S = "" /\ R = "".
Proof.
  split.
  - destruct S as [|c S]; unfold JS.split.
    + destruct R; simpl; [tauto | discriminate].
    + destruct (split_loop_cons (2 * String.length (String c S)) R ""
                  (String c S)) as (l0 & ls & E).
      rewrite E. discriminate.
  - intros [-> ->]. reflexivity.
Qed.

(** With a non-empty separator [split] is the loop, also on the empty
    subject. *)
Lemma split_as_loop (S R : string) :
  R <> "" -> JS.split S R = JS.split_loop (2 * String.length S) R "" S.
Proof.
  intros HR. destruct S as [|c S]; [|reflexivity].
  destruct R; [congruence | reflexivity].
Qed.

(** What has been collected so far only ever ends up at the front of the
    first part. *)
Lemma split_loop_prepend (fuel : nat) (R pre T s : string) :
  R <> "" ->
  JS.split_loop fuel R (pre ++ T) s
  = JS.prepend_first pre (JS.split_loop fuel R T s).
Proof.
  intros HR. apply is_empty_false in HR.
  revert T s; induction fuel as [|fuel IH]; intros T s;
    destruct s as [|c s]; simpl; try reflexivity.
  - now rewrite append_assoc.
  - rewrite HR; simpl.
    destruct (JS.SplitMatcher R (String c s)); [reflexivity|].
    now rewrite append_assoc, IH.
Qed.

Lemma pump_lines_loop (sep carry f : string) :
  sep <> "" ->
  pump_lines sep carry f = JS.split_loop (2 * String.length f) sep carry f.
Proof.
  intros Hsep. unfold pump_lines. rewrite split_as_loop by assumption.
  rewrite <- split_loop_prepend by assumption.
  now rewrite append_empty_r.
Qed.

Lemma pump_lines_cons (sep carry f : string) :
  exists l0 ls, pump_lines sep carry f = l0 :: ls.
Proof.
  unfold pump_lines. destruct (JS.split f sep); simpl; eauto.
Qed.

Lemma pump_lines_prepend (sep pre carry f : string) :
  pump_lines sep (pre ++ carry) f
  = JS.prepend_first pre (pump_lines sep carry f).
Proof.
  unfold pump_lines. destruct (JS.split f sep); simpl;
    now rewrite append_assoc.
Qed.

(** Lists with a last element *)

Lemma init_last (l0 : string) (ls : list string) :
  (JS.slice_init (l0 :: ls) ++ [JS.last_elem (l0 :: ls)])%list = l0 :: ls.
Proof.
  unfold JS.slice_init, JS.last_elem.
  symmetry. apply app_removelast_last. discriminate.
Qed.

Lemma slice_init_app (a : list string) (b0 : string) (b : list string) :
  JS.slice_init (a ++ b0 :: b)%list = (a ++ JS.slice_init (b0 :: b))%list.
Proof. unfold JS.slice_init. apply removelast_app. discriminate. Qed.

Lemma last_elem_app (a : list string) (b0 : string) (b : list string) :
  JS.last_elem (a ++ b0 :: b)%list = JS.last_elem (b0 :: b).
Proof.
  unfold JS.last_elem. induction a as [|x a IH]; [reflexivity|].
  simpl app. rewrite <- IH. simpl. destruct (a ++ b0 :: b)%list eqn:E.
  - destruct a; discriminate.
  - reflexivity.
Qed.

Lemma finish_app (a : list string) (b0 : string) (b : list string) :
  finish (a ++ b0 :: b)%list = (a ++ finish (b0 :: b))%list.
Proof.
  unfold finish. now rewrite slice_init_app, last_elem_app, app_assoc.
Qed.

(** ** The pump, branch by branch *)

Lemma push_all_queue (this : SplitIteratorImpl) (lines : list string) :
  push_all this lines =
  {| upstream := upstream this;
     separator := separator this;
     outputQueue := (outputQueue this ++ lines)%list |}.
Proof.
  unfold push_all. revert this; induction lines as [|l lines IH]; intros this.
  - simpl. rewrite app_nil_r. now destruct this.
  - simpl. rewrite IH. simpl. now rewrite <- app_assoc.
Qed.

Lemma statefulPump_value (u : list string) (sep : string)
  (q : list string) (carry f : string) :
  statefulPump {| upstream := f :: u; separator := sep; outputQueue := q |}
    {| carryover := carry |}
  = ({| pumpDidWork := true;
        state := {| carryover := JS.last_elem (pump_lines sep carry f) |} |},
     {| upstream := u; separator := sep;
        outputQueue := (q ++ JS.slice_init (pump_lines sep carry f))%list |}).
Proof.
  unfold statefulPump. simpl. now rewrite push_all_queue.
Qed.

Lemma statefulPump_done_empty (sep : string) (q : list string) :
  statefulPump {| upstream := []; separator := sep; outputQueue := q |}
    {| carryover := "" |}
  = ({| pumpDidWork := false; state := {| carryover := "" |} |},
     {| upstream := []; separator := sep; outputQueue := q |}).
Proof. reflexivity. Qed.

Lemma statefulPump_done_carry (sep : string) (q : list string)
  (carry : string) :
  carry <> "" ->
  statefulPump {| upstream := []; separator := sep; outputQueue := q |}
    {| carryover := carry |}
  = ({| pumpDidWork := true; state := {| carryover := "" |} |},
     {| upstream := []; separator := sep;
        outputQueue := (q ++ [carry])%list |}).
Proof.
  intros H. unfold statefulPump. simpl.
  rewrite eqb_empty. apply is_empty_false in H. now rewrite H.
Qed.

(** ** The lines of a stream *)

Lemma stream_lines_cons (sep : string) (frags : list string)
  (carry : string) :
  exists l0 ls, stream_lines sep frags carry = l0 :: ls.
Proof.
  revert carry; induction frags as [|f frags IH]; intros carry; simpl.
  - eauto.
  - destruct (IH (JS.last_elem (pump_lines sep carry f))) as (l0 & ls & E).
    rewrite E.
    destruct (JS.slice_init (pump_lines sep carry f)); simpl; eauto.
Qed.

Lemma stream_lines_app (sep : string) (frags1 frags2 : list string)
  (carry : string) :
  stream_lines sep (frags1 ++ frags2) carry
  = (JS.slice_init (stream_lines sep frags1 carry)
     ++ stream_lines sep frags2
          (JS.last_elem (stream_lines sep frags1 carry)))%list.
Proof.
  revert carry; induction frags1 as [|f frags1 IH]; intros carry.
  - reflexivity.
  - simpl. rewrite IH.
    destruct (stream_lines_cons sep frags1
                (JS.last_elem (pump_lines sep carry f))) as (l0 & ls & E).
    rewrite E, slice_init_app, last_elem_app. now rewrite app_assoc.
Qed.

Lemma stream_lines_prepend (sep : string) (frags : list string)
  (pre carry : string) :
  stream_lines sep frags (pre ++ carry)
  = JS.prepend_first pre (stream_lines sep frags carry).
Proof.
  revert carry; induction frags as [|f frags IH]; intros carry.
  - reflexivity.
  - simpl. rewrite pump_lines_prepend.
    destruct (pump_lines_cons sep carry f) as (l0 & ls & E). rewrite E.
    destruct ls as [|l1 ls].
    + simpl. apply IH.
    + reflexivity.
Qed.

(** ** Joining *)

Lemma join_prepend (sep pre l0 : string) (ls : list string) :
  Str.join sep (JS.prepend_first pre (l0 :: ls))
  = pre ++ Str.join sep (l0 :: ls).
Proof. destruct ls; simpl; [reflexivity | now rewrite append_assoc]. Qed.

Lemma join_glue (sep l0 g0 : string) (ls gs : list string) :
  Str.join sep
    (JS.slice_init (l0 :: ls)
     ++ JS.prepend_first (JS.last_elem (l0 :: ls)) (g0 :: gs))%list
  = Str.join sep (l0 :: ls) ++ Str.join sep (g0 :: gs).
Proof.
  revert l0; induction ls as [|l1 ls IH]; intros l0.
  - apply join_prepend.
  - change (JS.slice_init (l0 :: l1 :: ls))
      with (l0 :: JS.slice_init (l1 :: ls)).
    change (JS.last_elem (l0 :: l1 :: ls)) with (JS.last_elem (l1 :: ls)).
    rewrite join_cons, <- app_comm_cons.
    destruct (JS.slice_init (l1 :: ls)
              ++ JS.prepend_first (JS.last_elem (l1 :: ls)) (g0 :: gs))%list
      as [|x xs] eqn:E.
    + destruct (JS.slice_init (l1 :: ls)); discriminate.
    + rewrite join_cons, <- E, IH. now rewrite !append_assoc.
Qed.

(** A fragment pump keeps the text: its lines joined are the old
    carryover followed by the fragment. *)
Lemma join_pump_lines (sep carry f : string) :
  (sep = "" -> f <> "") ->
  Str.join sep (pump_lines sep carry f) = carry ++ f.
Proof.
  intros H. unfold pump_lines.
  destruct (JS.split f sep) as [|l0 ls] eqn:E.
  - apply split_nil in E. tauto.
  - rewrite join_prepend, <- E, join_split. reflexivity.
Qed.

Lemma join_stream_lines (sep : string) (frags : list string)
  (carry : string) :
  (sep = "" -> Forall (fun f => f <> "") frags) ->
  Str.join sep (stream_lines sep frags carry) = carry ++ Str.concat frags.
Proof.
  intros H. revert carry; induction frags as [|f frags IH]; intros carry.
  - simpl. now rewrite append_empty_r.
  - assert (Hf : sep = "" -> f <> "").
    { intros E. specialize (H E). now inversion H. }
    assert (Hr : sep = "" -> Forall (fun f => f <> "") frags).
    { intros E. specialize (H E). now inversion H. }
    simpl.
    rewrite <- (append_empty_r (JS.last_elem (pump_lines sep carry f))).
    rewrite stream_lines_prepend.
    destruct (pump_lines_cons sep carry f) as (l0 & ls & E).
    destruct (stream_lines_cons sep frags "") as (g0 & gs & G).
    rewrite E, G, join_glue, <- E, <- G.
    rewrite join_pump_lines, (IH Hr) by assumption.
    simpl. now rewrite append_assoc.
Qed.

(** ** How long the results are *)

Lemma length_split_loop (fuel : nat) (R T s : string) :
  length (JS.split_loop fuel R T s)
  <= String.length s
     + (if Str.is_empty R && Str.is_empty T && negb (Str.is_empty s)
        then 0 else 1).
Proof.
  revert T s; induction fuel as [|fuel IH]; intros T s;
    destruct s as [|c s]; simpl.
  - rewrite andb_false_r. lia.
  - destruct (Str.is_empty R && Str.is_empty T && true); lia.
  - rewrite andb_false_r. lia.
  - assert (Hadv : length (JS.split_loop fuel R (T ++ Str.unit c) s)
                   <= S (String.length s)).
    { specialize (IH (T ++ Str.unit c) s).
      rewrite is_empty_append_unit, andb_false_r in IH. simpl in IH. lia. }
    destruct (JS.SplitMatcher R (String c s)) as [rest|] eqn:Hm.
    2:{ destruct (Str.is_empty R && Str.is_empty T && true); lia. }
    destruct (Str.is_empty R && Str.is_empty T) eqn:Hep; simpl.
    { lia. }
    specialize (IH "" rest). apply SplitMatcher_length in Hm.
    simpl in Hm. destruct R as [|r R]; simpl in *.
    + destruct rest; simpl in *; [discriminate | lia].
    + lia.
Qed.

Lemma length_split (S R : string) :
  length (JS.split S R) <= String.length S + 1.
Proof.
  destruct S as [|c S]; unfold JS.split.
  - destruct (JS.SplitMatcher R ""); simpl; lia.
  - pose proof (length_split_loop (2 * String.length (String c S)) R ""
                  (String c S)) as H.
    destruct (Str.is_empty R && Str.is_empty "" && _) in H; lia.
Qed.

Lemma length_slice_init (lines : list string) :
  length (JS.slice_init lines) = length lines - 1.
Proof.
  unfold JS.slice_init. induction lines as [|l0 [|l1 ls] IH];
    try reflexivity.
  change (removelast (l0 :: l1 :: ls)) with (l0 :: removelast (l1 :: ls)).
  simpl length in *. rewrite IH. lia.
Qed.

Lemma length_pump_lines (sep carry f : string) :
  length (JS.slice_init (pump_lines sep carry f)) <= String.length f.
Proof.
  rewrite length_slice_init. unfold pump_lines.
  pose proof (length_split f sep) as H.
  destruct (JS.split f sep); simpl in *; lia.
Qed.

Lemma length_finish (lines : list string) :
  length (finish lines) <= length lines.
Proof.
  unfold finish. rewrite length_app, length_slice_init.
  destruct lines as [|l0 ls]; [simpl; lia|].
  destruct (JS.last_elem (l0 :: ls) =? "")%string; simpl; lia.
Qed.

Lemma length_stream_lines (sep : string) (frags : list string)
  (carry : string) :
  length (stream_lines sep frags carry) + length frags
  <= fold_right (fun f n => S (String.length f + n)) 0 frags + 1.
Proof.
  revert carry; induction frags as [|f frags IH]; intros carry; simpl.
  - lia.
  - rewrite length_app.
    pose proof (length_pump_lines sep carry f).
    specialize (IH (JS.last_elem (pump_lines sep carry f))). lia.
Qed.

(** ** Pulling *)

Lemma finish_single (carry : string) :
  finish [carry] = if Str.is_empty carry then [] else [carry].
Proof. unfold finish. simpl. now rewrite eqb_empty. Qed.

Lemma pending_value (u : list string) (sep : string) (q : list string)
  (carry f : string) :
  pending {| upstream := f :: u; separator := sep; outputQueue := q |}
    {| carryover := carry |}
  = pending
      {| upstream := u; separator := sep;
         outputQueue := (q ++ JS.slice_init (pump_lines sep carry f))%list |}
      {| carryover := JS.last_elem (pump_lines sep carry f) |}.
Proof.
  unfold pending. simpl.
  destruct (stream_lines_cons sep u
              (JS.last_elem (pump_lines sep carry f))) as (l0 & ls & E).
  rewrite E, finish_app. now rewrite app_assoc.
Qed.

Lemma statefulNext_queue (fuel : nat) (u : list string) (sep token : string)
  (q : list string) (st : StringCarryover) :
  statefulNext fuel
    {| upstream := u; separator := sep; outputQueue := token :: q |} st
  = Some (IterValue token, st,
          {| upstream := u; separator := sep; outputQueue := q |}).
Proof. destruct fuel; reflexivity. Qed.

(** A pull on an empty queue is a pump followed, if the pump did work,
    by the pull again. *)
Ltac pump_once fuel :=
  change (statefulNext (S fuel) ?t ?s)
    with (let (r, this') := statefulPump t s in
          if pumpDidWork r
          then statefulNext fuel this' (state r)
          else Some (IterDone, state r, this')).

(** One pull, given pumps for every fragment left and two more: it
    delivers the first pending token, or reports done when nothing is
    pending and then leaves the iterator exhausted and empty. *)
Lemma statefulNext_pending (fuel : nat) (this : SplitIteratorImpl)
  (st : StringCarryover) :
  length (upstream this) + 1 < fuel ->
  match statefulNext fuel this st with
  | Some (IterValue token, st', this') =>
      pending this st = token :: pending this' st'
      /\ length (upstream this') <= length (upstream this)
      /\ separator this' = separator this
  | Some (IterDone, st', this') =>
      pending this st = []
      /\ st' = {| carryover := "" |}
      /\ this' = {| upstream := []; separator := separator this;
                    outputQueue := [] |}
  | None => False
  end.
Proof.
  revert this st; induction fuel as [|fuel IH]; intros this st Hfuel; [lia|].
  destruct this as [u sep q], st as [carry].
  destruct q as [|token q].
  2:{ rewrite statefulNext_queue. unfold pending; simpl. auto. }
  destruct u as [|f u].
  - destruct carry as [|c carry].
    + simpl. auto.
    + pump_once fuel.
      rewrite statefulPump_done_carry by discriminate.
      cbn [pumpDidWork state app]. rewrite statefulNext_queue.
      unfold pending; simpl. auto.
  - pump_once fuel.
    rewrite statefulPump_value. cbn [pumpDidWork state].
    rewrite pending_value.
    match goal with
    | |- context [statefulNext fuel ?t ?s] =>
        specialize (IH t s); destruct (statefulNext fuel t s)
          as [[[[|token] st'] this']|]
    end; simpl in *.
    + apply IH. lia.
    + destruct IH as (H1 & H2 & H3); [lia|]. repeat split; try assumption.
      lia.
    + apply IH. lia.
Qed.

(** The consumer receives exactly what is pending, given a pull for every
    pending token and pumps for every fragment. *)
Lemma collect_pending (fuel : nat) (this : SplitIteratorImpl)
  (st : StringCarryover) :
  length (pending this st) + length (upstream this) + 1 < fuel ->
  collect fuel this st = Some (pending this st).
Proof.
  revert this st; induction fuel as [|fuel IH]; intros this st Hfuel; [lia|].
  pose proof (statefulNext_pending (S fuel) this st ltac:(lia)) as Hnext.
  change (collect (S fuel) this st)
    with (match statefulNext (S fuel) this st with
          | None => None
          | Some (IterDone, _, _) => Some []
          | Some (IterValue token, st', this') =>
              option_map (cons token) (collect fuel this' st')
          end).
  destruct (statefulNext (S fuel) this st) as [[[[|token] st'] this']|].
  - destruct Hnext as [-> _]. reflexivity.
  - destruct Hnext as (E & Hu & _). rewrite E in *. simpl in Hfuel.
    rewrite IH by lia. reflexivity.
  - contradiction.
Qed.

Lemma budget_enough (this : SplitIteratorImpl) (st : StringCarryover) :
  length (pending this st) + length (upstream this) + 1 < budget this.
Proof.
  unfold pending, budget. rewrite length_app.
  pose proof (length_finish
                (stream_lines (separator this) (upstream this)
                   (carryover st))).
  pose proof (length_stream_lines (separator this) (upstream this)
                (carryover st)).
  lia.
Qed.

(** The tokens of a run are the lines of the stream, read as tokens. *)
Lemma run_stream_lines (sep : string) (frags : list string) :
  run sep frags = finish (stream_lines sep frags "").
Proof.
  unfold run. rewrite collect_pending by apply budget_enough.
  reflexivity.
Qed.

Lemma pump_each_frags (sep : string) (frags more q : list string)
  (carry : string) :
  pump_each (length frags)
    {| upstream := (frags ++ more)%list; separator := sep;
       outputQueue := q |}
    {| carryover := carry |}
  = ({| carryover := JS.last_elem (stream_lines sep frags carry) |},
     {| upstream := more; separator := sep;
        outputQueue :=
          (q ++ JS.slice_init (stream_lines sep frags carry))%list |}).
Proof.
  revert q carry; induction frags as [|f frags IH]; intros q carry.
  - simpl. now rewrite app_nil_r.
  - change (pump_each (length (f :: frags)) ?t ?s)
      with (let (r, this') := statefulPump t s in
            pump_each (length frags) this' (state r)).
    simpl app. rewrite statefulPump_value. cbn [state]. rewrite IH.
    simpl stream_lines.
    destruct (stream_lines_cons sep frags
                (JS.last_elem (pump_lines sep carry f))) as (l0 & ls & E).
    rewrite E, slice_init_app, last_elem_app. now rewrite app_assoc.
Qed.

Lemma carryover_after_lines (sep : string) (frags : list string) :
  carryover_after sep frags = JS.last_elem (stream_lines sep frags "").
Proof.
  unfold carryover_after, SplitIterator, initialState.
  rewrite <- (app_nil_r frags) at 2. now rewrite pump_each_frags.
Qed.

Lemma queued_after_lines (sep : string) (frags : list string) :
  queued_after sep frags = JS.slice_init (stream_lines sep frags "").
Proof.
  unfold queued_after, SplitIterator, initialState.
  rewrite <- (app_nil_r frags) at 2. now rewrite pump_each_frags.
Qed.

(** ** The loop, step by step *)

Lemma lines_from_empty (R T : string) : JS.lines_from R T "" = [T].
Proof. reflexivity. Qed.

Lemma lines_from_fail (R T : string) (c : ascii) (s : string) :
  JS.SplitMatcher R (String c s) = None ->
  JS.lines_from R T (String c s) = JS.lines_from R (T ++ Str.unit c) s.
Proof.
  intros Hm. unfold JS.lines_from.
  change (2 * String.length (String c s))
    with (S (String.length s + S (String.length s + 0))).
  cbn [JS.split_loop]. rewrite Hm.
  apply split_loop_fuel; unfold JS.enough;
    rewrite is_empty_append_unit; lia.
Qed.

Lemma lines_from_match (R T : string) (c : ascii) (s rest : string) :
  R <> "" ->
  JS.SplitMatcher R (String c s) = Some rest ->
  JS.lines_from R T (String c s) = T :: JS.lines_from R "" rest.
Proof.
  intros HR Hm. unfold JS.lines_from.
  change (2 * String.length (String c s))
    with (S (String.length s + S (String.length s + 0))).
  cbn [JS.split_loop]. rewrite Hm.
  apply is_empty_false in HR. rewrite HR. cbn [andb]. f_equal.
  apply SplitMatcher_length in Hm.
  destruct R as [|r R]; [discriminate|]. simpl in Hm.
  apply split_loop_fuel; unfold JS.enough; simpl; lia.
Qed.

Lemma lines_from_cons (R T s : string) :
  exists l0 ls, JS.lines_from R T s = l0 :: ls.
Proof. apply split_loop_cons. Qed.

Lemma split_lines_from (S R : string) :
  R <> "" -> JS.split S R = JS.lines_from R "" S.
Proof. apply split_as_loop. Qed.

Lemma pump_lines_from (sep carry f : string) :
  sep <> "" -> pump_lines sep carry f = JS.lines_from sep carry f.
Proof. apply pump_lines_loop. Qed.

(** ** A single code unit as separator *)

Section SingleUnit.

Variable c : ascii.

(** The loop goes through the subject one unit at a time. *)
Lemma lines_from_unit (T : string) (a : ascii) (s : string) :
  JS.lines_from (Str.unit c) T (String a s)
  = if Ascii.eqb a c
    then T :: JS.lines_from (Str.unit c) "" s
    else JS.lines_from (Str.unit c) (T ++ Str.unit a) s.
Proof.
  destruct (Ascii.eqb a c) eqn:E.
  - apply lines_from_match; [discriminate|].
    now rewrite SplitMatcher_unit, E.
  - apply lines_from_fail. now rewrite SplitMatcher_unit, E.
Qed.

Lemma lines_from_unit_app (T s1 s2 : string) :
  JS.lines_from (Str.unit c) T (s1 ++ s2)
  = (JS.slice_init (JS.lines_from (Str.unit c) T s1)
     ++ JS.lines_from (Str.unit c)
          (JS.last_elem (JS.lines_from (Str.unit c) T s1)) s2)%list.
Proof.
  revert T; induction s1 as [|a s1 IH]; intros T.
  - reflexivity.
  - change (String a s1 ++ s2) with (String a (s1 ++ s2)).
    rewrite !lines_from_unit. destruct (Ascii.eqb a c).
    + rewrite IH.
      destruct (lines_from_cons (Str.unit c) "" s1) as (l0 & ls & E).
      rewrite E. reflexivity.
    + apply IH.
Qed.

(** With a single code unit as separator the lines of a stream are the
    lines of the concatenated fragments: where the fragments were cut
    does not show. *)
Lemma stream_lines_unit (frags : list string) (carry : string) :
  stream_lines (Str.unit c) frags carry
  = JS.lines_from (Str.unit c) carry (Str.concat frags).
Proof.
  revert carry; induction frags as [|f frags IH]; intros carry.
  - reflexivity.
  - simpl. rewrite IH, pump_lines_from by discriminate.
    now rewrite lines_from_unit_app.
Qed.

(** Strings free of the separator *)

Lemma free_of_append (a b : string) :
  free_of c (a ++ b) <-> free_of c a /\ free_of c b.
Proof. induction a as [|x a IH]; simpl; tauto. Qed.

Lemma contains_unit (s : string) :
  Str.contains (Str.unit c) s = false <-> free_of c s.
Proof.
  induction s as [|a s IH].
  - simpl. tauto.
  - change (Str.contains (Str.unit c) (String a s))
      with ((if ascii_dec c a then prefix "" s else false)
            || Str.contains (Str.unit c) s).
    simpl free_of. destruct (ascii_dec c a) as [->|Hne].
    + replace (prefix "" s) with true by (destruct s; reflexivity).
      simpl. split; [discriminate | tauto].
    + simpl. rewrite IH. split; [split; [congruence | assumption] | tauto].
Qed.

Lemma lines_from_free (T s : string) :
  free_of c T -> Forall (free_of c) (JS.lines_from (Str.unit c) T s).
Proof.
  revert T; induction s as [|a s IH]; intros T HT.
  - rewrite lines_from_empty. auto.
  - rewrite lines_from_unit. destruct (Ascii.eqb_spec a c) as [->|Hne].
    + constructor; [assumption|]. apply IH. exact I.
    + apply IH. apply free_of_append. simpl. tauto.
Qed.

End SingleUnit.

Lemma Forall_slice_init (P : string -> Prop) (lines : list string) :
  Forall P lines -> Forall P (JS.slice_init lines).
Proof.
  unfold JS.slice_init. induction lines as [|l0 [|l1 ls] IH]; intros H.
  - constructor.
  - constructor.
  - change (removelast (l0 :: l1 :: ls)) with (l0 :: removelast (l1 :: ls)).
    inversion H; subst. constructor; auto.
Qed.

Lemma Forall_last_elem (P : string -> Prop) (l0 : string)
  (ls : list string) :
  Forall P (l0 :: ls) -> P (JS.last_elem (l0 :: ls)).
Proof.
  unfold JS.last_elem. revert l0; induction ls as [|l1 ls IH]; intros l0 H.
  - now inversion H.
  - change (last (l0 :: l1 :: ls) "") with (last (l1 :: ls) "").
    inversion H; subst. auto.
Qed.

Lemma Forall_finish (P : string -> Prop) (l0 : string) (ls : list string) :
  Forall P (l0 :: ls) -> Forall P (finish (l0 :: ls)).
Proof.
  intros H. unfold finish. apply Forall_app. split.
  - now apply Forall_slice_init.
  - destruct (JS.last_elem (l0 :: ls) =? "")%string; [constructor|].
    constructor; [|constructor]. now apply Forall_last_elem.
Qed.

(** ** Counting the separators *)

Lemma length_skip (n : nat) (s : string) :
  String.length (Str.skip n s) = String.length s - n.
Proof.
  revert s; induction n as [|n IH]; intros s; destruct s as [|c s]; simpl;
    auto.
Qed.

Lemma length_lines_from (R : string) (n : nat) (T s : string) :
  R <> "" -> String.length s <= n ->
  length (JS.lines_from R T s) = S (Str.count_from n R s).
Proof.
  intros HR. revert T s; induction n as [|n IH]; intros T s Hn.
  - destruct s; [reflexivity | simpl in Hn; lia].
  - destruct s as [|c s]; [reflexivity|].
    cbn [Str.count_from].
    pose proof (SplitMatcher_prefix R (String c s)) as Hm.
    destruct (prefix R (String c s)).
    + rewrite (lines_from_match _ _ _ _ _ HR Hm). simpl length.
      rewrite IH; [reflexivity|]. rewrite length_skip.
      destruct R; [congruence | simpl in *; lia].
    + rewrite (lines_from_fail _ _ _ _ Hm). apply IH. simpl in Hn. lia.
Qed.

Lemma length_split_occurrences (S R : string) :
  R <> "" -> length (JS.split S R) = 1 + Str.occurrences R S.
Proof.
  intros HR. rewrite split_lines_from by assumption.
  unfold Str.occurrences. now apply length_lines_from.
Qed.

(** For a single code unit the occurrences are the positions holding it. *)
Lemma occurrences_unit (c : ascii) (s : string) :
  Str.occurrences (Str.unit c) s = Str.count_char c s.
Proof.
  unfold Str.occurrences. induction s as [|a s IH]; [reflexivity|].
  cbn [String.length Str.count_from Str.count_char].
  change (prefix (Str.unit c) (String a s))
    with (if ascii_dec c a then prefix "" s else false).
  destruct (ascii_dec c a) as [->|Hne].
  - replace (prefix "" s) with true by (destruct s; reflexivity).
    rewrite Ascii.eqb_refl. simpl. now rewrite IH.
  - destruct (Ascii.eqb_spec a c); [congruence|]. simpl. exact IH.
Qed.

(** ** The empty separator *)

Lemma split_loop_empty_separator (s : string) (c : ascii) (fuel : nat) :
  2 * String.length s <= fuel ->
  JS.split_loop fuel "" (Str.unit c) s = Str.chars (String c s).
Proof.
  revert c fuel; induction s as [|d s IH]; intros c fuel Hfuel.
  - destruct fuel; reflexivity.
  - simpl in Hfuel. destruct fuel as [|[|fuel]]; try lia.
    simpl. f_equal. apply IH. lia.
Qed.

Lemma split_empty_separator (c : ascii) (s : string) :
  JS.split (String c s) "" = Str.chars (String c s).
Proof.
  unfold JS.split.
  change (2 * String.length (String c s))
    with (S (String.length s + S (String.length s + 0))).
  simpl. apply split_loop_empty_separator. lia.
Qed.

Lemma finish_chars (c : ascii) (s : string) :
  finish (Str.chars (String c s)) = Str.chars (String c s).
Proof.
  revert c; induction s as [|d s IH]; intros c.
  - reflexivity.
  - change (Str.chars (String c (String d s)))
      with ([Str.unit c] ++ Str.unit d :: Str.chars s)%list.
    rewrite finish_app. f_equal. apply IH.
Qed.

(** ** The empty fragment *)

Lemma pump_lines_empty_fragment (sep carry : string) :
  sep <> "" -> pump_lines sep carry "" = [carry].
Proof.
  intros Hsep. unfold pump_lines.
  destruct sep; [congruence|]. simpl. now rewrite append_empty_r.
Qed.

Lemma stream_lines_empty_fragment (sep : string) (frags1 frags2 : list string)
  (carry : string) :
  sep <> "" ->
  stream_lines sep (frags1 ++ "" :: frags2) carry
  = stream_lines sep (frags1 ++ frags2) carry.
Proof.
  intros Hsep. rewrite !stream_lines_app. f_equal.
  simpl. now rewrite pump_lines_empty_fragment.
Qed.

(** ** The end of the stream *)

Lemma statefulPump_no_work (this this' : SplitIteratorImpl)
  (st : StringCarryover) (r : StatefulPumpResult) :
  statefulPump this st = (r, this') -> pumpDidWork r = false ->
  upstream this = [] /\ carryover st = "" /\ this' = this /\ state r = st.
Proof.
  destruct this as [u sep q], st as [carry]. unfold statefulPump.
  destruct u as [|f u]; simpl.
  - destruct carry; simpl; intros E; inversion E; subst; simpl;
      [auto | discriminate].
  - intros E; inversion E; subst; simpl. discriminate.
Qed.

Lemma statefulNext_done (fuel : nat) (this this' : SplitIteratorImpl)
  (st st' : StringCarryover) :
  statefulNext fuel this st = Some (IterDone, st', this') ->
  upstream this' = [] /\ outputQueue this' = [] /\ carryover st' = "".
Proof.
  revert this st; induction fuel as [|fuel IH]; intros this st.
  - simpl. destruct (outputQueue this); discriminate.
  - simpl. destruct (outputQueue this) as [|token q] eqn:Q; [|discriminate].
    destruct (statefulPump this st) as [r this1] eqn:P.
    destruct (pumpDidWork r) eqn:W.
    + apply IH.
    + intros E. inversion E; subst.
      destruct (statefulPump_no_work _ _ _ _ P W) as (U & C & -> & ->).
      auto.
Qed.

(** * The claims *)

Lemma join_snoc (sep x y : string) (xs : list string) :
  Str.join sep ((x :: xs) ++ [y])%list = Str.join sep (x :: xs) ++ sep ++ y.
Proof.
  revert x; induction xs as [|x' xs IH]; intros x.
  - reflexivity.
  - change ((x :: x' :: xs) ++ [y])%list with (x :: ((x' :: xs) ++ [y]))%list.
    change ((x' :: xs) ++ [y])%list with (x' :: (xs ++ [y]))%list.
    rewrite join_cons.
    change (x' :: (xs ++ [y]))%list with ((x' :: xs) ++ [y])%list.
    rewrite IH, join_cons. now rewrite !append_assoc.
Qed.

(** What one fragment pump queues and leaves, joined, is the carryover it
    found followed by the fragment. *)
Lemma pump_keeps_text (sep f carry : string) (u q : list string) :
  (sep = "" -> f <> "") ->
  let (r, this') :=
    statefulPump
      {| upstream := f :: u; separator := sep; outputQueue := q |}
      {| carryover := carry |} in
  exists queued,
    outputQueue this' = (q ++ queued)%list
    /\ Str.join sep (queued ++ [carryover (state r)])%list = carry ++ f.
Proof.
  intros H. rewrite statefulPump_value.
  exists (JS.slice_init (pump_lines sep carry f)). split; [reflexivity|].
  cbn [state carryover].
  destruct (pump_lines_cons sep carry f) as (l0 & ls & E).
  rewrite E, init_last, <- E. now apply join_pump_lines.
Qed.

(** C1, as stated, fails: with the delimiter [","] the single fragment
    ["a,"] is emitted as the one token ["a"], which joins to ["a"] and not
    to ["a,"]; and the tokens of one pump joined, directly followed by the
    new carryover, lack the delimiter between the two. *)
Lemma roundtrip_trailing_delimiter :
  Str.join "," (run "," ["a,"]) <> Str.concat ["a,"]
  /\ (let (r, this') :=
        statefulPump (SplitIterator ["a,b"] ",") initialState in
      Str.join "," (outputQueue this') ++ carryover (state r)
      <> carryover initialState ++ "a,b").
Proof. split; vm_compute; discriminate. Qed.

(** C1, amended.  For fragments none of which is empty when the delimiter
    is: each pump that consumes a fragment queues tokens that, joined
    with the new carryover by the delimiter, give the old carryover
    followed by the fragment; the tokens queued by all the pumps joined
    with the final carryover give the concatenation of the fragments; and
    the emitted tokens joined give that concatenation, short of one final
    delimiter when the stream ends right after a delimiter (tokens were
    emitted and the final carryover is empty). *)
Theorem split_join_roundtrip (sep : string) (frags : list string)
  (H : sep = "" -> Forall (fun f => f <> "") frags) :
  (forall f u q carry, In f frags ->
     let (r, this') :=
       statefulPump
         {| upstream := f :: u; separator := sep; outputQueue := q |}
         {| carryover := carry |} in
     exists queued,
       outputQueue this' = (q ++ queued)%list
       /\ Str.join sep (queued ++ [carryover (state r)])%list = carry ++ f)
  /\ Str.join sep (queued_after sep frags ++ [carryover_after sep frags])%list
     = Str.concat frags
  /\ Str.join sep (run sep frags)
     ++ match run sep frags with
        | [] => ""
        | _ :: _ => if Str.is_empty (carryover_after sep frags)
                    then sep else ""
        end
     = Str.concat frags.
Proof.
  assert (J : Str.join sep (stream_lines sep frags "") = Str.concat frags)
    by now apply join_stream_lines.
  rewrite run_stream_lines, queued_after_lines, carryover_after_lines.
  destruct (stream_lines_cons sep frags "") as (l0 & ls & E).
  rewrite E in *. rewrite init_last. split; [|split; [exact J|]].
  - intros f u q carry Hin. apply pump_keeps_text. intros Hsep.
    specialize (H Hsep). rewrite Forall_forall in H. now apply H.
  - unfold finish. rewrite eqb_empty.
    pose proof (init_last l0 ls) as IL. rewrite <- IL in J.
    destruct (JS.slice_init (l0 :: ls)) as [|x xs];
      destruct (Str.is_empty (JS.last_elem (l0 :: ls))) eqn:L;
      rewrite ?app_nil_r.
    + apply is_empty_true in L. rewrite L in J. exact J.
    + simpl app. now rewrite append_empty_r.
    + apply is_empty_true in L. rewrite L, join_snoc in J.
      now rewrite append_empty_r in J.
    + rewrite <- J. now rewrite append_empty_r.
Qed.

Lemma split_join_roundtrip_witness :
  ("," = "" -> Forall (fun f => f <> "") ["a,b"; ",c,"])
  /\ Str.join "," (run "," ["a,b"; ",c,"])
     ++ match run "," ["a,b"; ",c,"] with
        | [] => ""
        | _ :: _ => if Str.is_empty (carryover_after "," ["a,b"; ",c,"])
                    then "," else ""
        end
     = Str.concat ["a,b"; ",c,"].
Proof.
  assert (H : "," = "" -> Forall (fun f => f <> "") ["a,b"; ",c,"])
    by discriminate.
  split; [exact H|].
  exact (proj2 (proj2 (split_join_roundtrip "," ["a,b"; ",c,"] H))).
Defined.

(** C2, as stated, fails: a delimiter of two code units that is cut by a
    fragment boundary is not seen, and with the empty delimiter the code
    units on both sides of a boundary form one token. *)
Lemma boundary_dependence :
  (Str.concat ["xa"; "by"] = Str.concat ["xaby"]
   /\ run "ab" ["xa"; "by"] <> run "ab" ["xaby"])
  /\ (Str.concat ["ab"; "cd"] = Str.concat ["abcd"]
      /\ run "" ["ab"; "cd"] <> run "" ["abcd"]).
Proof. repeat split; vm_compute; discriminate. Qed.

(** C2, amended.  For every delimiter that is a single code unit, two
    fragment sequences with the same concatenation are emitted as the
    same token sequence: the parts of the standard split of the
    concatenation, without the last part when it is empty. *)
Theorem boundary_independence (c : ascii) (frags1 frags2 : list string)
  (H : Str.concat frags1 = Str.concat frags2) :
  run (Str.unit c) frags1 = run (Str.unit c) frags2
  /\ run (Str.unit c) frags1
     = finish (JS.split (Str.concat frags1) (Str.unit c)).
Proof.
  rewrite !run_stream_lines, !stream_lines_unit, H.
  split; [reflexivity|].
  now rewrite split_lines_from by discriminate.
Qed.

Lemma boundary_independence_witness :
  Str.concat ["a,b"; ",c"] = Str.concat ["a"; ",b,"; ""; "c"]
  /\ run "," ["a,b"; ",c"] = run "," ["a"; ",b,"; ""; "c"].
Proof.
  assert (H : Str.concat ["a,b"; ",c"] = Str.concat ["a"; ",b,"; ""; "c"])
    by reflexivity.
  split; [exact H|].
  exact (proj1 (boundary_independence ","%char _ _ H)).
Defined.




(** C4.  When the upstream reports done, the pump with an empty carryover
    reports no work done and changes neither the state nor the queue;
    with a non-empty carryover it queues the carryover as one token,
    empties the carryover and reports work done.  The pump after that
    reports no work done and changes nothing, and a consumer of the
    exhausted iterator receives the carryover as its one last token, or
    nothing when the carryover is empty. *)
Theorem pump_upstream_done (sep carry : string) (q : list string)
  (fuel : nat) :
  let this := {| upstream := []; separator := sep; outputQueue := q |} in
  statefulPump this {| carryover := carry |}
  = (if Str.is_empty carry
     then ({| pumpDidWork := false; state := {| carryover := carry |} |},
           this)
     else ({| pumpDidWork := true; state := {| carryover := "" |} |},
           {| upstream := []; separator := sep;
              outputQueue := (q ++ [carry])%list |}))
  /\ (let (r, this') := statefulPump this {| carryover := carry |} in
      statefulPump this' (state r)
      = ({| pumpDidWork := false; state := state r |}, this'))
  /\ collect (3 + fuel)
       {| upstream := []; separator := sep; outputQueue := [] |}
       {| carryover := carry |}
     = Some (if Str.is_empty carry then [] else [carry]).
Proof.
  split; [|split].
  - destruct carry; reflexivity.
  - destruct carry; reflexivity.
  - rewrite collect_pending.
    + unfold pending. simpl. now rewrite finish_single.
    + unfold pending. simpl. rewrite finish_single.
      destruct (Str.is_empty carry); simpl; lia.
Qed.

(** C5, as stated, fails: with the empty delimiter the last code unit of a
    fragment and the first of the next form one token, and an empty
    fragment then adds the text [undefined] to the carryover. *)
Lemma empty_delimiter_tokens :
  run "" ["ab"; "cd"] <> Str.chars (Str.concat ["ab"; "cd"])
  /\ run "" ["x"; ""] <> run "" ["x"].
Proof. split; vm_compute; discriminate. Qed.

(** C5, amended.  The splitting is total: [split] gives its result
    however many more iterations its loop is allowed, and a consumer
    given at least the pulls of [budget] receives the tokens of the run.
    With the empty delimiter a stream that arrives as one non-empty
    fragment is emitted one code unit per token.  For every non-empty
    delimiter a pump that pulls the empty fragment queues nothing and
    keeps the carryover, and the empty fragment adds nothing to the tokens
    of a run. *)
Theorem split_total (sep : string) (frags frags' : list string)
  (c r : ascii) (s R carry : string) (u q : list string) (more : nat) :
  JS.split_loop (2 * String.length (String c s) + more) sep "" (String c s)
  = JS.split (String c s) sep
  /\ collect (budget (SplitIterator frags sep) + more)
       (SplitIterator frags sep) initialState
     = Some (run sep frags)
  /\ run "" [String c s] = Str.chars (String c s)
  /\ statefulPump
       {| upstream := "" :: u; separator := String r R; outputQueue := q |}
       {| carryover := carry |}
     = ({| pumpDidWork := true; state := {| carryover := carry |} |},
        {| upstream := u; separator := String r R; outputQueue := q |})
  /\ run (String r R) (frags ++ "" :: frags')
     = run (String r R) (frags ++ frags').
Proof.
  repeat split.
  - unfold JS.split. apply split_loop_fuel; unfold JS.enough; simpl; lia.
  - rewrite collect_pending.
    + now rewrite run_stream_lines.
    + pose proof (budget_enough (SplitIterator frags sep) initialState). lia.
  - rewrite run_stream_lines. simpl stream_lines. unfold pump_lines.
    rewrite split_empty_separator.
    change (JS.prepend_first "" (Str.chars (String c s)))
      with (Str.chars (String c s)).
    change (Str.chars (String c s)) with (Str.unit c :: Str.chars s).
    rewrite init_last. apply finish_chars.
  - rewrite statefulPump_value.
    rewrite pump_lines_empty_fragment by discriminate.
    simpl. now rewrite app_nil_r.
  - rewrite !run_stream_lines.
    now rewrite stream_lines_empty_fragment by discriminate.
Qed.

Lemma pump_each_exhausted (n : nat) (sep : string) (q : list string) :
  pump_each n {| upstream := []; separator := sep; outputQueue := q |}
    initialState
  = (initialState, {| upstream := []; separator := sep; outputQueue := q |}).
Proof. induction n as [|n IH]; [reflexivity | exact IH]. Qed.

(** C6.  Once a pull has reported done, every further pull reports done
    and returns the state and the iterator it was given; and with the
    upstream done and the carryover empty the pump reports no work done
    and leaves state and iterator as they are, however often it is
    called. *)
Theorem done_is_terminal (fuel : nat) (this this' : SplitIteratorImpl)
  (st st' : StringCarryover)
  (H : statefulNext fuel this st = Some (IterDone, st', this')) :
  (forall n, statefulNext (S n) this' st' = Some (IterDone, st', this'))
  /\ statefulPump this' st'
     = ({| pumpDidWork := false; state := st' |}, this')
  /\ (forall sep q n,
        let exhausted :=
          {| upstream := []; separator := sep; outputQueue := q |} in
        statefulPump exhausted initialState
        = ({| pumpDidWork := false; state := initialState |}, exhausted)
        /\ pump_each n exhausted initialState = (initialState, exhausted)).
Proof.
  destruct (statefulNext_done _ _ _ _ _ H) as (U & Q & C).
  destruct this' as [u sep q], st' as [carry]. simpl in U, Q, C. subst.
  split; [reflexivity|]. split; [reflexivity|].
  intros sep' q n. split; [reflexivity | apply pump_each_exhausted].
Qed.

Lemma done_is_terminal_witness :
  statefulNext 2 (SplitIterator [""] ",") initialState
  = Some (IterDone, initialState, SplitIterator [] ",")
  /\ forall n,
       statefulNext (S n) (SplitIterator [] ",") initialState
       = Some (IterDone, initialState, SplitIterator [] ",").
Proof.
  assert (H : statefulNext 2 (SplitIterator [""] ",") initialState
              = Some (IterDone, initialState, SplitIterator [] ","))
    by reflexivity.
  split; [exact H|].
  exact (proj1 (done_is_terminal _ _ _ _ _ H)).
Defined.

(** C7.  Scenario D: the fragments ["a"], [""], ["b,c"] with the
    delimiter [","] are emitted as the tokens ["ab"], ["c"]; the pump
    that pulls the empty fragment queues nothing and keeps the carryover
    ["a"]. *)
Theorem scenario_D :
  run "," ["a"; ""; "b,c"] = ["ab"; "c"]
  /\ pump_each 1 (SplitIterator ["a"; ""; "b,c"] ",") initialState
     = ({| carryover := "a" |}, SplitIterator [""; "b,c"] ",")
  /\ pump_each 2 (SplitIterator ["a"; ""; "b,c"] ",") initialState
     = ({| carryover := "a" |}, SplitIterator ["b,c"] ",").
Proof. repeat split; reflexivity. Qed.

(** A pump keeps the carryover and the queue free of a delimiter that is
    a single code unit. *)
Lemma pump_keeps_free (c : ascii) (this : SplitIteratorImpl)
  (st : StringCarryover) :
  separator this = Str.unit c ->
  free_of c (carryover st) -> Forall (free_of c) (outputQueue this) ->
  let (r, this') := statefulPump this st in
  separator this' = Str.unit c
  /\ free_of c (carryover (state r))
  /\ Forall (free_of c) (outputQueue this').
Proof.
  destruct this as [u sep q], st as [carry]. simpl. intros -> Hc Hq.
  destruct u as [|f u].
  - destruct carry as [|a carry]; simpl.
    + auto.
    + split; [reflexivity|]. split; [exact I|]. apply Forall_app. auto.
  - rewrite statefulPump_value. simpl.
    rewrite pump_lines_from by discriminate.
    pose proof (lines_from_free c carry f Hc) as Hl.
    destruct (lines_from_cons (Str.unit c) carry f) as (l0 & ls & E).
    rewrite E in *. repeat split.
    + now apply Forall_last_elem.
    + apply Forall_app. split; [assumption|]. now apply Forall_slice_init.
Qed.

Lemma pump_each_keeps_free (c : ascii) (n : nat) (this : SplitIteratorImpl)
  (st : StringCarryover) :
  separator this = Str.unit c ->
  free_of c (carryover st) -> Forall (free_of c) (outputQueue this) ->
  free_of c (carryover (fst (pump_each n this st)))
  /\ Forall (free_of c) (outputQueue (snd (pump_each n this st))).
Proof.
  revert this st; induction n as [|n IH]; intros this st Hs Hc Hq.
  - simpl. auto.
  - simpl. pose proof (pump_keeps_free c this st Hs Hc Hq) as P.
    destruct (statefulPump this st) as [r this'].
    destruct P as (Hs' & Hc' & Hq'). now apply IH.
Qed.

(** C8, as stated, fails: the delimiter ["ab"] is not empty, yet after the
    fragments ["xa"], ["by"] the carryover is ["xaby"], which contains
    it, and so does the token emitted at the end. *)
Lemma carryover_holds_long_delimiter :
  "ab" <> ""
  /\ Str.contains "ab" (carryover_after "ab" ["xa"; "by"]) = true
  /\ Exists (fun token => Str.contains "ab" token = true)
       (run "ab" ["xa"; "by"]).
Proof.
  split; [discriminate|]. split; [reflexivity|].
  apply Exists_cons_hd. reflexivity.
Qed.

(** C8, amended.  For every delimiter that is a single code unit: in the
    initial state and after any number of pumps the carryover does not
    contain the delimiter, nor does any queued token, and no token
    emitted by a run contains it. *)
Theorem carryover_free_of_delimiter (c : ascii) (frags : list string)
  (n : nat) :
  let sep := Str.unit c in
  let after := pump_each n (SplitIterator frags sep) initialState in
  Str.contains sep (carryover initialState) = false
  /\ Str.contains sep (carryover (fst after)) = false
  /\ Forall (fun token => Str.contains sep token = false)
       (outputQueue (snd after))
  /\ Forall (fun token => Str.contains sep token = false) (run sep frags).
Proof.
  cbv zeta.
  destruct (pump_each_keeps_free c n (SplitIterator frags (Str.unit c))
              initialState eq_refl I (Forall_nil _)) as [Hc Hq].
  split; [reflexivity|]. split; [now apply contains_unit|]. split.
  - eapply Forall_impl; [|exact Hq]. intros t. apply contains_unit.
  - rewrite run_stream_lines, stream_lines_unit.
    destruct (lines_from_cons (Str.unit c) "" (Str.concat frags))
      as (l0 & ls & E).
    pose proof (lines_from_free c "" (Str.concat frags) I) as Hl.
    rewrite E in *. apply Forall_finish.
    eapply Forall_impl; [|exact Hl]. intros t. apply contains_unit.
Qed.

(** C9.  For every non-empty delimiter, the pump that pulls a fragment
    queues as many tokens as the delimiter occurs in the fragment
    (occurrences counted from the left, each starting after the end of
    the one before), and the pump that finds the upstream done queues one
    token if the carryover is non-empty and none otherwise.  For a
    delimiter of a single code unit the occurrences are the positions of
    the fragment that hold it. *)
Theorem pump_token_count (sep f carry : string) (u q : list string)
  (H : sep <> "") :
  (exists queued,
     outputQueue
       (snd (statefulPump
               {| upstream := f :: u; separator := sep; outputQueue := q |}
               {| carryover := carry |}))
     = (q ++ queued)%list
     /\ length queued = Str.occurrences sep f)
  /\ (exists queued,
        outputQueue
          (snd (statefulPump
                  {| upstream := []; separator := sep; outputQueue := q |}
                  {| carryover := carry |}))
        = (q ++ queued)%list
        /\ length queued = if Str.is_empty carry then 0 else 1)
  /\ (forall c, sep = Str.unit c ->
        Str.occurrences sep f = Str.count_char c f).
Proof.
  split; [|split].
  - rewrite statefulPump_value. simpl.
    exists (JS.slice_init (pump_lines sep carry f)). split; [reflexivity|].
    rewrite length_slice_init. unfold pump_lines.
    pose proof (length_split_occurrences f sep H) as L.
    destruct (JS.split f sep); simpl in *; lia.
  - destruct carry as [|a carry].
    + exists []. simpl. now rewrite app_nil_r.
    + exists [String a carry]. split; reflexivity.
  - intros c ->. apply occurrences_unit.
Qed.

Lemma pump_token_count_witness :
  "," <> ""
  /\ exists queued,
       outputQueue
         (snd (statefulPump
                 {| upstream := ["b,,c"]; separator := ",";
                    outputQueue := ["z"] |}
                 {| carryover := "a" |}))
       = (["z"] ++ queued)%list
       /\ length queued = Str.occurrences "," "b,,c".
Proof.
  assert (H : "," <> "") by discriminate.
  split; [exact H|].
  exact (proj1 (pump_token_count "," "b,,c" "a" [] ["z"] H)).
Defined.

(** * Further properties of the pump *)

(** ** Fragments without the delimiter *)

Lemma lines_from_absent (R T s : string) :
  R <> "" -> Str.contains R s = false ->
  JS.lines_from R T s = [T ++ s].
Proof.
  intros HR. revert T; induction s as [|a s IH]; intros T Hc.
  - rewrite lines_from_empty. now rewrite append_empty_r.
  - change (Str.contains R (String a s))
      with (prefix R (String a s) || Str.contains R s) in Hc.
    apply orb_false_iff in Hc. destruct Hc as [Hp Hc].
    rewrite lines_from_fail.
    + rewrite IH by assumption. now rewrite append_assoc.
    + now rewrite SplitMatcher_prefix, Hp.
Qed.

Lemma stream_lines_absent (sep : string) (frags : list string)
  (carry : string) :
  sep <> "" -> Forall (fun f => Str.contains sep f = false) frags ->
  stream_lines sep frags carry = [carry ++ Str.concat frags].
Proof.
  intros Hsep H. revert carry; induction H as [|f frags Hf _ IH];
    intros carry.
  - simpl. now rewrite append_empty_r.
  - cbn [stream_lines Str.concat].
    rewrite pump_lines_from, lines_from_absent by assumption.
    unfold JS.slice_init, JS.last_elem. cbn [removelast last app].
    rewrite IH. now rewrite append_assoc.
Qed.

Lemma concat_empty (frags : list string) :
  Str.concat frags = "" <-> Forall (fun f => f = "") frags.
Proof.
  induction frags as [|f frags IH]; simpl.
  - split; auto.
  - split.
    + intros E. destruct f; [|discriminate]. constructor; [reflexivity|].
      now apply IH.
    + intros H. inversion H; subst. now apply IH.
Qed.

Lemma stream_lines_all_empty (sep : string) (frags : list string)
  (carry : string) :
  sep <> "" -> Forall (fun f => f = "") frags ->
  stream_lines sep frags carry = [carry].
Proof.
  intros Hsep H. revert carry; induction H as [|f frags -> _ IH];
    intros carry.
  - reflexivity.
  - simpl. rewrite pump_lines_empty_fragment by assumption. apply IH.
Qed.

(** X1.  The pumps do not look ahead, and what is queued stays: after the
    pumps have consumed the fragments [frags1], the carryover and the
    queue are those of the run over [frags1] alone whatever fragments
    follow, the fragments that follow are all still upstream, and the
    tokens of the whole run are the tokens queued so far followed by what
    a consumer receives from the iterator over the remaining fragments
    started with that carryover. *)
Theorem run_resumes (sep : string) (frags1 frags2 : list string)
  (more : nat) :
  pump_each (length frags1) (SplitIterator (frags1 ++ frags2) sep)
    initialState
  = ({| carryover := carryover_after sep frags1 |},
     {| upstream := frags2; separator := sep;
        outputQueue := queued_after sep frags1 |})
  /\ exists rest,
       collect (budget (SplitIterator frags2 sep) + more)
         (SplitIterator frags2 sep)
         {| carryover := carryover_after sep frags1 |}
       = Some rest
       /\ run sep (frags1 ++ frags2)
          = (queued_after sep frags1 ++ rest)%list.
Proof.
  rewrite carryover_after_lines, queued_after_lines. split.
  - unfold SplitIterator, initialState. now rewrite pump_each_frags.
  - eexists. split.
    + apply collect_pending.
      pose proof (budget_enough (SplitIterator frags2 sep)
                    {| carryover :=
                         JS.last_elem (stream_lines sep frags1 "") |}).
      lia.
    + rewrite run_stream_lines, stream_lines_app. unfold pending. simpl.
      destruct (stream_lines_cons sep frags2
                  (JS.last_elem (stream_lines sep frags1 "")))
        as (l0 & ls & E).
      rewrite E. apply finish_app.
Qed.

(** X2.  A token may span any number of fragments: for a non-empty
    delimiter, while no fragment contains the delimiter the pumps queue
    nothing and the carryover grows to the concatenation of the
    fragments, which the run emits as its one token (or as none when it
    is empty). *)
Theorem token_spans_fragments (sep : string) (frags : list string)
  (Hsep : sep <> "")
  (H : Forall (fun f => Str.contains sep f = false) frags) :
  queued_after sep frags = []
  /\ carryover_after sep frags = Str.concat frags
  /\ run sep frags
     = if Str.is_empty (Str.concat frags) then [] else [Str.concat frags].
Proof.
  rewrite queued_after_lines, carryover_after_lines, run_stream_lines.
  rewrite (stream_lines_absent sep frags "" Hsep H). simpl.
  repeat split. apply finish_single.
Qed.

Lemma token_spans_fragments_witness :
  ("," <> "" /\ Forall (fun f => Str.contains "," f = false)
                   ["ab"; ""; "cd"; "e"])
  /\ run "," ["ab"; ""; "cd"; "e"] = ["abcde"].
Proof.
  assert (Hsep : "," <> "") by discriminate.
  assert (H : Forall (fun f => Str.contains "," f = false)
                ["ab"; ""; "cd"; "e"])
    by (repeat constructor).
  split; [exact (conj Hsep H)|].
  exact (proj2 (proj2 (token_spans_fragments "," _ Hsep H))).
Defined.

(** X3.  For a non-empty delimiter the run emits no token at all exactly
    when every fragment is empty (in particular when there is no
    fragment). *)
Theorem run_empty_iff (sep : string) (frags : list string)
  (Hsep : sep <> "") :
  run sep frags = [] <-> Forall (fun f => f = "") frags.
Proof.
  rewrite run_stream_lines. split.
  - intros E. apply concat_empty.
    pose proof (join_stream_lines sep frags "" ltac:(congruence)) as J.
    destruct (stream_lines_cons sep frags "") as (l0 & ls & L).
    rewrite L in *. rewrite <- (init_last l0 ls) in J.
    unfold finish in E. apply app_eq_nil in E. destruct E as [E1 E2].
    rewrite E1 in J.
    destruct (JS.last_elem (l0 :: ls) =? "")%string eqn:Q;
      [|discriminate].
    apply String.eqb_eq in Q. rewrite Q in J. simpl in J. now rewrite <- J.
  - intros H. rewrite stream_lines_all_empty by assumption. reflexivity.
Qed.

Lemma run_empty_iff_witness :
  "," <> ""
  /\ (run "," [""; ""] = [] <-> Forall (fun f => f = "") [""; ""]).
Proof.
  assert (Hsep : "," <> "") by discriminate.
  split; [exact Hsep|].
  exact (run_empty_iff "," [""; ""] Hsep).
Defined.

(** ** Where the carryover starts *)

Lemma last_line_suffix (c : ascii) (T s : string) :
  exists pre,
    T ++ s = pre ++ JS.last_elem (JS.lines_from (Str.unit c) T s)
    /\ (pre = "" \/ exists before, pre = before ++ Str.unit c).
Proof.
  revert T; induction s as [|a s IH]; intros T.
  - exists "". rewrite lines_from_empty. simpl.
    rewrite append_empty_r. auto.
  - rewrite lines_from_unit. destruct (Ascii.eqb_spec a c) as [->|Hne].
    + destruct (IH "") as (pre & E & Hpre).
      destruct (lines_from_cons (Str.unit c) "" s) as (l0 & ls & L).
      rewrite L in *.
      change (JS.last_elem (T :: l0 :: ls)) with (JS.last_elem (l0 :: ls)).
      exists (T ++ Str.unit c ++ pre). split.
      * rewrite !append_assoc. simpl in E. simpl. now rewrite E.
      * right. destruct Hpre as [->|(before & ->)].
        -- exists T. now rewrite append_empty_r.
        -- exists (T ++ Str.unit c ++ before). now rewrite !append_assoc.
    + destruct (IH (T ++ Str.unit a)) as (pre & E & Hpre).
      exists pre. split; [|assumption].
      rewrite <- E. now rewrite append_assoc.
Qed.

(** X4.  For a delimiter that is a single code unit the carryover is the
    text after the last delimiter consumed: the concatenation of the
    fragments consumed is some text that is empty or ends with the
    delimiter, followed by the carryover, and the carryover does not
    contain the delimiter. *)
Theorem carryover_is_open_tail (c : ascii) (frags : list string) :
  exists pre,
    Str.concat frags = pre ++ carryover_after (Str.unit c) frags
    /\ (pre = "" \/ exists before, pre = before ++ Str.unit c)
    /\ Str.contains (Str.unit c) (carryover_after (Str.unit c) frags)
       = false.
Proof.
  rewrite carryover_after_lines, stream_lines_unit.
  destruct (last_line_suffix c "" (Str.concat frags)) as (pre & E & Hpre).
  exists pre. split; [exact E|]. split; [exact Hpre|].
  apply contains_unit.
  destruct (lines_from_cons (Str.unit c) "" (Str.concat frags))
    as (l0 & ls & L).
  pose proof (lines_from_free c "" (Str.concat frags) I) as F.
  rewrite L in *. now apply Forall_last_elem.
Qed.

(** ** How many tokens *)

Lemma length_queued (sep carry f : string) :
  sep <> "" ->
  length (JS.slice_init (pump_lines sep carry f)) = Str.occurrences sep f.
Proof.
  intros Hsep. rewrite length_slice_init. unfold pump_lines.
  pose proof (length_split_occurrences f sep Hsep) as L.
  destruct (JS.split f sep); simpl in *; lia.
Qed.

Lemma length_stream_lines_occurrences (sep : string) (frags : list string)
  (carry : string) :
  sep <> "" ->
  length (stream_lines sep frags carry)
  = S (list_sum (map (Str.occurrences sep) frags)).
Proof.
  intros Hsep. revert carry; induction frags as [|f frags IH]; intros carry.
  - reflexivity.
  - simpl. rewrite length_app, IH, length_queued by assumption. lia.
Qed.

Lemma count_char_append (c : ascii) (a b : string) :
  Str.count_char c (a ++ b) = Str.count_char c a + Str.count_char c b.
Proof. induction a as [|x a IH]; simpl; [reflexivity | rewrite IH; lia]. Qed.

Lemma count_char_concat (c : ascii) (frags : list string) :
  list_sum (map (Str.occurrences (Str.unit c)) frags)
  = Str.count_char c (Str.concat frags).
Proof.
  induction frags as [|f frags IH]; simpl; [reflexivity|].
  now rewrite count_char_append, IH, occurrences_unit.
Qed.

Lemma last_line_empty (c : ascii) (T s : string) :
  Str.is_empty (JS.last_elem (JS.lines_from (Str.unit c) T s))
  = if Str.is_empty s then Str.is_empty T else ends_with c s.
Proof.
  revert T; induction s as [|a s IH]; intros T.
  - reflexivity.
  - rewrite lines_from_unit. cbn [Str.is_empty].
    destruct (Ascii.eqb a c) eqn:E.
    + destruct (lines_from_cons (Str.unit c) "" s) as (l0 & ls & L).
      specialize (IH ""). rewrite L in *.
      change (JS.last_elem (T :: l0 :: ls)) with (JS.last_elem (l0 :: ls)).
      rewrite IH. destruct s; [simpl; now rewrite E | reflexivity].
    + rewrite IH, is_empty_append_unit.
      destruct s; [simpl; now rewrite E | reflexivity].
Qed.

(** X5.  For a non-empty delimiter a run emits one token for every
    occurrence of the delimiter inside a fragment, and one more when the
    carryover left at the end is not empty; for a delimiter that is a
    single code unit that is one token for every delimiter of the
    concatenated stream, and one more when that stream is not empty and
    does not end with the delimiter. *)
Theorem run_token_count (sep : string) (frags : list string)
  (Hsep : sep <> "") :
  length (run sep frags)
  = list_sum (map (Str.occurrences sep) frags)
    + (if Str.is_empty (carryover_after sep frags) then 0 else 1)
  /\ forall c, sep = Str.unit c ->
       length (run sep frags)
       = Str.count_char c (Str.concat frags)
         + (if Str.is_empty (Str.concat frags)
               || ends_with c (Str.concat frags)
            then 0 else 1).
Proof.
  assert (E : length (run sep frags)
              = list_sum (map (Str.occurrences sep) frags)
                + (if Str.is_empty (carryover_after sep frags)
                   then 0 else 1)).
  { rewrite run_stream_lines, carryover_after_lines.
    pose proof (length_stream_lines_occurrences sep frags "" Hsep) as L.
    unfold finish. rewrite length_app, length_slice_init, L, eqb_empty.
    destruct (Str.is_empty (JS.last_elem (stream_lines sep frags "")));
      simpl; lia. }
  split; [exact E|]. intros c ->.
  rewrite E, count_char_concat, carryover_after_lines, stream_lines_unit.
  rewrite last_line_empty.
  destruct (Str.is_empty (Str.concat frags)); reflexivity.
Qed.

Lemma run_token_count_witness :
  "," <> ""
  /\ length (run "," ["a,b"; ",c,"; "d"])
     = list_sum (map (Str.occurrences ",") ["a,b"; ",c,"; "d"])
       + (if Str.is_empty (carryover_after "," ["a,b"; ",c,"; "d"])
          then 0 else 1).
Proof.
  assert (Hsep : "," <> "") by discriminate.
  split; [exact Hsep|].
  exact (proj1 (run_token_count "," ["a,b"; ",c,"; "d"] Hsep)).
Defined.

(** ** The parts of a split *)

(** X6.  [split] loses nothing: for every subject and every separator,
    the empty one included, the parts joined by the separator are the
    subject again; and the result has no part at all only when subject
    and separator are both empty. *)
Theorem split_join_inverse (S R : string) :
  Str.join R (JS.split S R) = S
  /\ (JS.split S R = [] <-> S = "" /\ R = "").
Proof. split; [apply join_split | apply split_nil]. Qed.

Lemma prefix_append (R x y : string) :
  prefix R x = true -> prefix R (x ++ y) = true.
Proof.
  revert x; induction R as [|r R IH]; intros x H.
  - destruct x, y; reflexivity.
  - destruct x as [|a x]; [discriminate|].
    change (prefix (String r R) (String a x))
      with (if ascii_dec r a then prefix R x else false) in H.
    change (prefix (String r R) (String a x ++ y))
      with (if ascii_dec r a then prefix R (x ++ y) else false).
    destruct (ascii_dec r a); [now apply IH | discriminate].
Qed.

Lemma unmatched_advance (R T : string) (c : ascii) (s : string) :
  unmatched R T (String c s) -> prefix R (String c s) = false ->
  unmatched R (T ++ Str.unit c) s.
Proof.
  induction T as [|a T IH]; intros HT Hp.
  - simpl. auto.
  - destruct HT as [H1 H2]. split.
    + change (prefix R (String a ((T ++ Str.unit c) ++ s)) = false).
      rewrite append_assoc. exact H1.
    + now apply IH.
Qed.

Lemma unmatched_contains (R T s : string) :
  R <> "" -> unmatched R T s -> Str.contains R T = false.
Proof.
  intros HR. induction T as [|a T IH]; intros HT.
  - destruct R; [congruence | reflexivity].
  - destruct HT as [H1 H2].
    change (Str.contains R (String a T))
      with (prefix R (String a T) || Str.contains R T).
    rewrite (IH H2), orb_false_r.
    destruct (prefix R (String a T)) eqn:P; [|reflexivity].
    now rewrite (prefix_append _ _ s P) in H1.
Qed.

Lemma lines_from_unmatched (R : string) (n : nat) (T s : string) :
  R <> "" -> String.length s <= n -> unmatched R T s ->
  Forall (fun part => Str.contains R part = false) (JS.lines_from R T s).
Proof.
  intros HR. revert T s; induction n as [|n IH]; intros T s Hn HT.
  - destruct s; [|simpl in Hn; lia].
    rewrite lines_from_empty. constructor; [|constructor].
    now apply (unmatched_contains R T "").
  - destruct s as [|c s].
    { rewrite lines_from_empty. constructor; [|constructor].
      now apply (unmatched_contains R T ""). }
    pose proof (SplitMatcher_prefix R (String c s)) as Hm.
    destruct (prefix R (String c s)) eqn:P.
    + rewrite (lines_from_match _ _ _ _ _ HR Hm). constructor.
      * now apply (unmatched_contains R T (String c s)).
      * apply IH; [|exact I]. rewrite length_skip.
        destruct R; [congruence | simpl in *; lia].
    + rewrite (lines_from_fail _ _ _ _ Hm). apply IH.
      * simpl in Hn. lia.
      * now apply unmatched_advance.
Qed.

Lemma split_parts_free (S R : string) :
  R <> "" -> Forall (fun part => Str.contains R part = false) (JS.split S R).
Proof.
  intros HR. rewrite split_lines_from by assumption.
  now apply (lines_from_unmatched R (String.length S)).
Qed.

(** X7.  For every non-empty separator, of one code unit or of several, no
    part of a split contains the separator.  Hence of the lines of one
    fragment pump (the tokens it queues followed by the carryover it
    leaves) only the first, the one the old carryover was put in front
    of, can contain the delimiter. *)
Theorem only_first_line_holds_delimiter (sep f carry : string)
  (u q : list string) (Hsep : sep <> "") :
  Forall (fun part => Str.contains sep part = false) (JS.split f sep)
  /\ (let (r, this') :=
        statefulPump
          {| upstream := f :: u; separator := sep; outputQueue := q |}
          {| carryover := carry |} in
      exists queued,
        outputQueue this' = (q ++ queued)%list
        /\ Forall (fun line => Str.contains sep line = false)
             (tl (queued ++ [carryover (state r)]))).
Proof.
  pose proof (split_parts_free f sep Hsep) as F.
  split; [exact F|]. rewrite statefulPump_value.
  exists (JS.slice_init (pump_lines sep carry f)). split; [reflexivity|].
  cbn [state carryover].
  destruct (pump_lines_cons sep carry f) as (l0 & ls & E).
  rewrite E, init_last. unfold pump_lines in E.
  destruct (JS.split f sep) as [|p0 ps] eqn:P.
  - apply split_nil in P. tauto.
  - simpl in E. inversion E; subst. simpl. now inversion F.
Qed.

Lemma only_first_line_holds_delimiter_witness :
  "ab" <> ""
  /\ Forall (fun part => Str.contains "ab" part = false)
       (JS.split "bxabaabb" "ab").
Proof.
  assert (Hsep : "ab" <> "") by discriminate.
  split; [exact Hsep|].
  exact (proj1 (only_first_line_holds_delimiter "ab" "bxabaabb" "a" [] []
                  Hsep)).
Defined.

(** ** Reading back what was written *)

Section Records.

Variable c : ascii.

Lemma lines_from_free_prefix (T t s : string) :
  free_of c t ->
  JS.lines_from (Str.unit c) T (t ++ s)
  = JS.lines_from (Str.unit c) (T ++ t) s.
Proof.
  revert T; induction t as [|a t IH]; intros T Ht.
  - now rewrite append_empty_r.
  - destruct Ht as [Ha Ht].
    change (String a t ++ s) with (String a (t ++ s)).
    rewrite lines_from_unit.
    destruct (Ascii.eqb_spec a c) as [E|_]; [congruence|].
    rewrite IH by assumption. now rewrite append_assoc.
Qed.

Lemma lines_from_join (T t0 : string) (ts : list string) :
  Forall (free_of c) (t0 :: ts) ->
  JS.lines_from (Str.unit c) T (Str.join (Str.unit c) (t0 :: ts))
  = (T ++ t0)%string :: ts.
Proof.
  revert T t0; induction ts as [|t1 ts IH]; intros T t0 H.
  - inversion H; subst. simpl Str.join.
    rewrite <- (append_empty_r t0) at 1.
    now rewrite lines_from_free_prefix.
  - inversion H; subst. rewrite join_cons.
    rewrite lines_from_free_prefix by assumption.
    change (Str.unit c ++ Str.join (Str.unit c) (t1 :: ts))
      with (String c (Str.join (Str.unit c) (t1 :: ts))).
    rewrite lines_from_unit, Ascii.eqb_refl.
    now rewrite IH.
Qed.

Lemma concat_terminated (t0 : string) (ts : list string) :
  Str.concat (map (fun t => (t ++ Str.unit c)%string) (t0 :: ts))
  = Str.join (Str.unit c) ((t0 :: ts) ++ [""]).
Proof.
  revert t0; induction ts as [|t1 ts IH]; intros t0.
  - simpl. now rewrite append_empty_r.
  - change (Str.concat (map (fun t => (t ++ Str.unit c)%string)
                          (t0 :: t1 :: ts)))
      with ((t0 ++ Str.unit c)
            ++ Str.concat (map (fun t => (t ++ Str.unit c)%string)
                             (t1 :: ts))).
    rewrite IH.
    change ((t0 :: t1 :: ts) ++ [""])%list
      with (t0 :: ((t1 :: ts) ++ [""]))%list.
    change ((t1 :: ts) ++ [""])%list with (t1 :: (ts ++ [""]))%list.
    rewrite join_cons. now rewrite append_assoc.
Qed.

Lemma Forall_free_of (ts : list string) :
  Forall (fun t => Str.contains (Str.unit c) t = false) ts ->
  Forall (free_of c) ts.
Proof.
  intros H. eapply Forall_impl; [|exact H]. intros t. apply contains_unit.
Qed.

End Records.

(** X8.  Records written each followed by the delimiter are read back as
    they were: when the delimiter is a single code unit that no record
    contains, and the fragments are any way of cutting up the records
    each followed by the delimiter, the run emits exactly the records,
    empty records included. *)
Theorem terminated_records_roundtrip (c : ascii)
  (records frags : list string)
  (Hfree : Forall (fun t => Str.contains (Str.unit c) t = false) records)
  (Hcat : Str.concat frags
          = Str.concat (map (fun t => (t ++ Str.unit c)%string) records)) :
  run (Str.unit c) frags = records.
Proof.
  rewrite run_stream_lines, stream_lines_unit, Hcat.
  destruct records as [|t0 ts]; [reflexivity|].
  rewrite concat_terminated.
  change ((t0 :: ts) ++ [""])%list with (t0 :: (ts ++ [""]))%list.
  rewrite lines_from_join.
  - change (("" ++ t0)%string :: (ts ++ [""])%list)
      with ((t0 :: ts) ++ [""])%list.
    unfold finish.
    unfold JS.slice_init, JS.last_elem.
    rewrite removelast_last, last_last. simpl. now rewrite app_nil_r.
  - change (t0 :: (ts ++ [""]))%list with ((t0 :: ts) ++ [""])%list.
    apply Forall_app. split; [now apply Forall_free_of|].
    constructor; [exact I | constructor].
Qed.

Lemma terminated_records_roundtrip_witness :
  (Forall (fun t => Str.contains "," t = false) ["ab"; ""; "c"]
   /\ Str.concat ["a"; "b,,"; ""; "c,"]
      = Str.concat (map (fun t => (t ++ ",")%string) ["ab"; ""; "c"]))
  /\ run "," ["a"; "b,,"; ""; "c,"] = ["ab"; ""; "c"].
Proof.
  assert (Hfree : Forall (fun t => Str.contains "," t = false)
                    ["ab"; ""; "c"]) by (repeat constructor).
  assert (Hcat : Str.concat ["a"; "b,,"; ""; "c,"]
                 = Str.concat (map (fun t => (t ++ ",")%string)
                                 ["ab"; ""; "c"])) by reflexivity.
  split; [exact (conj Hfree Hcat)|].
  exact (terminated_records_roundtrip ","%char _ _ Hfree Hcat).
Defined.

(** X9.  Records written with the delimiter between them are read back as
    they were, provided the last one is not empty: when the delimiter is
    a single code unit that no record contains, and the fragments are any
    way of cutting up the records joined by the delimiter, the run emits
    exactly the records. *)
Theorem separated_records_roundtrip (c : ascii)
  (records frags : list string)
  (Hfree : Forall (fun t => Str.contains (Str.unit c) t = false) records)
  (Hlast : JS.last_elem records <> "")
  (Hcat : Str.concat frags = Str.join (Str.unit c) records) :
  run (Str.unit c) frags = records.
Proof.
  rewrite run_stream_lines, stream_lines_unit, Hcat.
  destruct records as [|t0 ts]; [now elim Hlast|].
  rewrite lines_from_join by now apply Forall_free_of.
  change ("" ++ t0) with t0. unfold finish.
  apply String.eqb_neq in Hlast. rewrite Hlast. apply init_last.
Qed.

Lemma separated_records_roundtrip_witness :
  (Forall (fun t => Str.contains "," t = false) [""; "ab"; ""; "c"]
   /\ JS.last_elem [""; "ab"; ""; "c"] <> ""
   /\ Str.concat [",a"; "b,"; ",c"] = Str.join "," [""; "ab"; ""; "c"])
  /\ run "," [",a"; "b,"; ",c"] = [""; "ab"; ""; "c"].
Proof.
  assert (Hfree : Forall (fun t => Str.contains "," t = false)
                    [""; "ab"; ""; "c"]) by (repeat constructor).
  assert (Hlast : JS.last_elem [""; "ab"; ""; "c"] <> "") by discriminate.
  assert (Hcat : Str.concat [",a"; "b,"; ",c"]
                 = Str.join "," [""; "ab"; ""; "c"]) by reflexivity.
  split; [exact (conj Hfree (conj Hlast Hcat))|].
  exact (separated_records_roundtrip ","%char _ _ Hfree Hlast Hcat).
Defined.

(** ** How much a pump can hold *)

Lemma length_last_join (sep l0 : string) (ls : list string) :
  String.length (JS.last_elem (l0 :: ls))
  <= String.length (Str.join sep (l0 :: ls)).
Proof.
  revert l0; induction ls as [|l1 ls IH]; intros l0.
  - apply le_n.
  - change (JS.last_elem (l0 :: l1 :: ls)) with (JS.last_elem (l1 :: ls)).
    rewrite join_cons, !length_append. specialize (IH l1). lia.
Qed.

(** X10.  One fragment pump queues at most as many tokens as the fragment
    has code units, whatever the delimiter; and the carryover it leaves
    is no longer than the carryover it found followed by the fragment,
    except when delimiter and fragment are both empty, where it is the
    carryover it found followed by the text [undefined]. *)
Theorem pump_bounds (sep f carry : string) (u q : list string) :
  let (r, this') :=
    statefulPump
      {| upstream := f :: u; separator := sep; outputQueue := q |}
      {| carryover := carry |} in
  exists queued,
    outputQueue this' = (q ++ queued)%list
    /\ length queued <= String.length f
    /\ if Str.is_empty sep && Str.is_empty f
       then carryover (state r) = carry ++ "undefined"
       else String.length (carryover (state r))
            <= String.length carry + String.length f.
Proof.
  rewrite statefulPump_value.
  exists (JS.slice_init (pump_lines sep carry f)).
  split; [reflexivity|]. split; [apply length_pump_lines|].
  cbn [state carryover].
  destruct (Str.is_empty sep && Str.is_empty f) eqn:B.
  - apply andb_true_iff in B. destruct B as [B1 B2].
    apply is_empty_true in B1, B2. subst. reflexivity.
  - assert (H : sep = "" -> f <> "").
    { intros -> ->. discriminate. }
    pose proof (join_pump_lines sep carry f H) as J.
    destruct (pump_lines_cons sep carry f) as (l0 & ls & E).
    rewrite E in *. pose proof (length_last_join sep l0 ls) as L.
    rewrite J, length_append in L. exact L.
Qed.

(** ** The empty delimiter *)

Lemma stream_lines_empty_empty (n : nat) (carry : string) :
  stream_lines "" (repeat "" n) carry
  = [carry ++ Str.concat (repeat JS.undefined n)].
Proof.
  revert carry; induction n as [|n IH]; intros carry.
  - simpl. now rewrite append_empty_r.
  - cbn [repeat stream_lines Str.concat].
    change (pump_lines "" carry "") with [carry ++ JS.undefined].
    unfold JS.slice_init, JS.last_elem. cbn [removelast last app].
    rewrite IH. now rewrite append_assoc.
Qed.

(** X11.  With the empty delimiter an empty fragment has no part, so that
    the pump reads an absent first line: it queues nothing and appends
    the nine code units of [undefined] to the carryover.  A run over [n]
    empty fragments, [n] at least one, emits the single token made of [n]
    times [undefined]. *)
Theorem empty_fragment_empty_delimiter (n : nat) (carry : string)
  (u q : list string) :
  statefulPump
    {| upstream := "" :: u; separator := ""; outputQueue := q |}
    {| carryover := carry |}
  = ({| pumpDidWork := true;
        state := {| carryover := carry ++ "undefined" |} |},
     {| upstream := u; separator := ""; outputQueue := q |})
  /\ queued_after "" (repeat "" n) = []
  /\ carryover_after "" (repeat "" n) = Str.concat (repeat "undefined" n)
  /\ run "" (repeat "" (S n)) = [Str.concat (repeat "undefined" (S n))].
Proof.
  split; [|split; [|split]].
  - rewrite statefulPump_value.
    change (pump_lines "" carry "") with [carry ++ JS.undefined].
    simpl. now rewrite app_nil_r.
  - rewrite queued_after_lines, stream_lines_empty_empty. reflexivity.
  - rewrite carryover_after_lines, stream_lines_empty_empty. reflexivity.
  - rewrite run_stream_lines, stream_lines_empty_empty. reflexivity.
Qed.

Lemma pump_lines_empty_delimiter (carry : string) (a : ascii) (s : string) :
  pump_lines "" carry (String a s)
  = (carry ++ Str.unit a)%string :: Str.chars s.
Proof. unfold pump_lines. now rewrite split_empty_separator. Qed.

Lemma length_chars (s : string) : length (Str.chars s) = String.length s.
Proof. induction s as [|a s IH]; simpl; [reflexivity | now rewrite IH]. Qed.

Lemma last_chars_nonempty (l0 : string) (s : string) :
  l0 <> "" -> JS.last_elem (l0 :: Str.chars s) <> "".
Proof.
  revert l0; induction s as [|a s IH]; intros l0 H.
  - exact H.
  - change (JS.last_elem (l0 :: Str.chars (String a s)))
      with (JS.last_elem (Str.unit a :: Str.chars s)).
    apply IH. discriminate.
Qed.

Lemma stream_lines_empty_delimiter (frags : list string) (carry : string) :
  Forall (fun f => f <> "") frags ->
  length (stream_lines "" frags carry) + length frags
  = String.length (Str.concat frags) + 1
  /\ (carry <> "" \/ frags <> [] ->
      JS.last_elem (stream_lines "" frags carry) <> "").
Proof.
  intros H. revert carry; induction H as [|f frags Hf _ IH]; intros carry.
  - simpl. split; [reflexivity|]. intros [E|E]; [exact E | congruence].
  - destruct f as [|a s]; [congruence|].
    cbn [stream_lines Str.concat]. rewrite pump_lines_empty_delimiter.
    assert (K : JS.last_elem ((carry ++ Str.unit a)%string :: Str.chars s)
                <> "").
    { apply last_chars_nonempty. destruct carry; discriminate. }
    destruct (IH (JS.last_elem
                    ((carry ++ Str.unit a)%string :: Str.chars s)))
      as [IH1 IH2].
    destruct (stream_lines_cons "" frags
                (JS.last_elem
                   ((carry ++ Str.unit a)%string :: Str.chars s)))
      as (l0 & ls & E).
    rewrite E in *. split.
    + rewrite length_app, length_slice_init, length_append.
      simpl length in *. rewrite length_chars. cbn [String.length]. lia.
    + intros _. rewrite last_elem_app. apply IH2. now left.
Qed.

(** X12.  With the empty delimiter the lines of a pump on a non-empty
    fragment (the tokens it queues followed by the carryover it leaves)
    are the carryover it found followed by the first code unit, and then
    every further code unit of the fragment as a line of its own; for a
    fragment of one code unit nothing is queued and the carryover grows
    by that unit.  So a run over at least one fragment, all of them
    non-empty, emits one token for every code unit of the stream, less
    one for every boundary between two fragments. *)
Theorem empty_delimiter_run (frags : list string) (carry : string)
  (a : ascii) (s : string) (u q : list string)
  (H : Forall (fun f => f <> "") frags) (Hne : frags <> []) :
  (let (r, this') :=
     statefulPump
       {| upstream := String a s :: u; separator := "";
          outputQueue := q |}
       {| carryover := carry |} in
   exists queued,
     outputQueue this' = (q ++ queued)%list
     /\ (queued ++ [carryover (state r)])%list
        = (carry ++ Str.unit a)%string :: Str.chars s)
  /\ length (run "" frags) + length frags
     = String.length (Str.concat frags) + 1.
Proof.
  split.
  - rewrite statefulPump_value.
    exists (JS.slice_init (pump_lines "" carry (String a s))).
    split; [reflexivity|]. cbn [state carryover].
    rewrite pump_lines_empty_delimiter. apply init_last.
  - rewrite run_stream_lines.
    destruct (stream_lines_empty_delimiter frags "" H) as [L K].
    specialize (K (or_intror Hne)).
    destruct (stream_lines_cons "" frags "") as (l0 & ls & E).
    rewrite E in *. unfold finish.
    apply String.eqb_neq in K. rewrite K.
    rewrite init_last. exact L.
Qed.

Lemma empty_delimiter_run_witness :
  (Forall (fun f => f <> "") ["ab"; "cde"; "f"] /\ ["ab"; "cde"; "f"] <> [])
  /\ length (run "" ["ab"; "cde"; "f"]) + length ["ab"; "cde"; "f"]
     = String.length (Str.concat ["ab"; "cde"; "f"]) + 1.
Proof.
  assert (H : Forall (fun f => f <> "") ["ab"; "cde"; "f"])
    by (repeat constructor; discriminate).
  assert (Hne : ["ab"; "cde"; "f"] <> []) by discriminate.
  split; [exact (conj H Hne)|].
  exact (proj2 (empty_delimiter_run _ "" "a"%char "" [] [] H Hne)).
Defined.
